(** * Refresh-coalescing response interceptor

    A shallow embedding of
    [src/shared/libs/api/axios/response-error-interceptor.ts] together with
    the wiring of [src/shared/libs/api/axios/index.ts], where the interceptor
    is installed on the one shared client [SquareAxios] that is also used for
    the refresh POST and for every replay.

    The module-level variables [isRefreshing] and [refreshSubscribers] are
    fields of an explicit [World]; promises are represented by the party that
    observes their settlement; the event loop is a step function over
    environment events (a request is issued, the transport answers a request,
    a suspended [await] is resumed).  Every externally visible action is
    appended to a trace. *)

From stdpp Require Import gmap strings list fin_maps.

(** ** Data *)

(** A request descriptor is a mutable JS object.  The interceptor touches
    only its optional [_retry] field, so a descriptor is represented by its
    identity and the heap records the [_retry] field of every descriptor
    (no entry: the field is [undefined]). *)
Abbreviation ConfigRef := nat (only parsing).

(** What a promise is fulfilled with: [null], or a response. *)
Inductive Value :=
| Null
| Response (data : nat).

(** The fields of an [AxiosError] that the interceptor reads:
    [axios.isCancel(error)], [error.response?.status] and [error.config]. *)
Record AxiosError := mkAxiosError {
  isCancel : bool;
  response_status : option nat;
  config : option ConfigRef;
  message : string
}.

Inductive Settlement :=
| Fulfilled (v : Value)
| Rejected (reason : AxiosError).

(** A promise returned by [SquareAxios(...)] is identified with whoever
    observes its settlement: application code holding the promise of its
    request [p], or an activation of the interceptor suspended at
    [await SquareAxios.post(API_PATHS.AUTH.REFRESH)], which keeps its local
    [originalRequest] and the promise it has itself returned. *)
Inductive Promise :=
| CallerPromise (p : nat)
| RefreshAwait (originalRequest : ConfigRef) (returned : Promise).

(** The closure pushed by [subscribeRefresh] at lines 32-38: it captures
    [error], [originalRequest] and the [resolve]/[reject] pair of the promise
    created at line 31. *)
Record Subscriber := mkSubscriber {
  sub_error : AxiosError;
  sub_originalRequest : ConfigRef;
  sub_promise : Promise
}.

(** A resumption of a suspended activation: the awaited refresh promise has
    settled with [job_settlement]. *)
Record Job := mkJob {
  job_originalRequest : ConfigRef;
  job_returned : Promise;
  job_settlement : Settlement
}.

Inductive Effect :=
| RefreshPost (x : nat)
    (* SquareAxios.post(API_PATHS.AUTH.REFRESH), sent as exchange x *)
| Replay (originalRequest : ConfigRef) (x : nat)
    (* SquareAxios(originalRequest), sent as exchange x *)
| Navigate (href : string)
    (* window.location.href = href *)
| Settle (p : nat) (s : Settlement).
    (* the promise held by the caller of request p settles *)

Record World := mkWorld {
  isRefreshing : bool;
  refreshSubscribers : list Subscriber;
  retry_field : gmap nat bool;      (* the _retry field of each descriptor *)
  inflight : gmap nat Promise;      (* exchanges awaiting an answer *)
  jobs : list Job;                  (* resumptions not yet run *)
  trace : list Effect;
  next_ref : nat;                   (* next fresh descriptor identity *)
  window_defined : bool             (* typeof window !== "undefined" *)
}.

Definition initial (window : bool) : World :=
  mkWorld false [] ∅ ∅ [] [] 0 window.

(** ** Field updates *)

Definition set_isRefreshing (b : bool) (w : World) : World :=
  let 'mkWorld _ subs retry flight js t n win := w in
  mkWorld b subs retry flight js t n win.

Definition set_refreshSubscribers (l : list Subscriber) (w : World) : World :=
  let 'mkWorld flag _ retry flight js t n win := w in
  mkWorld flag l retry flight js t n win.

Definition set_retry_field (m : gmap nat bool) (w : World) : World :=
  let 'mkWorld flag subs _ flight js t n win := w in
  mkWorld flag subs m flight js t n win.

Definition set_inflight (m : gmap nat Promise) (w : World) : World :=
  let 'mkWorld flag subs retry _ js t n win := w in
  mkWorld flag subs retry m js t n win.

Definition set_jobs (l : list Job) (w : World) : World :=
  let 'mkWorld flag subs retry flight _ t n win := w in
  mkWorld flag subs retry flight l t n win.

Definition log (e : Effect) (w : World) : World :=
  let 'mkWorld flag subs retry flight js t n win := w in
  mkWorld flag subs retry flight js (t ++ [e]) n win.

Definition set_next_ref (n : nat) (w : World) : World :=
  let 'mkWorld flag subs retry flight js t _ win := w in
  mkWorld flag subs retry flight js t n win.

(** ** Promises and the client *)

(** JS truthiness of an optional boolean field. *)
Definition truthy (o : option bool) : bool :=
  match o with
  | Some true => true
  | _ => false
  end.

(** Settling a promise.  A caller's promise is settled on the spot; the
    continuation of an [await] is scheduled as a job and runs later. *)
Definition settle (k : Promise) (s : Settlement) (w : World) : World :=
  match k with
  | CallerPromise p => log (Settle p s) w
  | RefreshAwait c returned => set_jobs (jobs w ++ [mkJob c returned s]) w
  end.

(** Sending a request through the client.  axios merges the given
    descriptor into a fresh one, which keeps the [_retry] field it was given
    ([retry]), and that fresh descriptor is the [config] of any error the
    exchange ends with.  The exchange is named after its fresh descriptor;
    [k] observes the returned promise. *)
Definition dispatch (retry : option bool) (k : Promise) (w : World) : World :=
  let x := next_ref w in
  set_next_ref (S x)
    (set_inflight (<[x := k]> (inflight w))
       (set_retry_field (partial_alter (fun _ => retry) x (retry_field w)) w)).

(** [SquareAxios(originalRequest)] *)
Definition SquareAxios (originalRequest : ConfigRef) (k : Promise) (w : World)
  : World :=
  dispatch (retry_field w !! originalRequest) k
           (log (Replay originalRequest (next_ref w)) w).

(** [SquareAxios.post(API_PATHS.AUTH.REFRESH)] *)
Definition SquareAxios_post_refresh (k : Promise) (w : World) : World :=
  dispatch None k (log (RefreshPost (next_ref w)) w).

(** ** The interceptor module *)

(** The closure of lines 32-38 applied to [ok]. *)
Definition callback (s : Subscriber) (ok : bool) (w : World) : World :=
  if negb ok then settle (sub_promise s) (Rejected (sub_error s)) w
  else SquareAxios (sub_originalRequest s) (sub_promise s) w.

(** Lines 8-13.  No callback pushes a subscriber while the loop runs (a
    callback only settles a promise or sends a request), so the loop visits
    exactly the subscribers present when it starts. *)
Definition onRefreshed (ok : bool) (w : World) : World :=
  set_refreshSubscribers []
    (fold_left (fun w' cb => callback cb ok w') (refreshSubscribers w) w).

(** Lines 15-17. *)
Definition subscribeRefresh (cb : Subscriber) (w : World) : World :=
  set_refreshSubscribers (refreshSubscribers w ++ [cb]) w.

Definition status_is (error : AxiosError) (n : nat) : bool :=
  match response_status error with
  | Some s => Nat.eqb s n
  | None => false
  end.

(** The condition of line 27; it yields [originalRequest] when it holds. *)
Definition retryable (error : AxiosError) (w : World) : option ConfigRef :=
  if status_is error 401 then
    match config error with
    | Some originalRequest =>
        if negb (truthy (retry_field w !! originalRequest))
        then Some originalRequest else None
    | None => None
    end
  else None.

(** Lines 19-45 and 63: the activation up to its first suspension point.
    [returned] is the promise the async function returns. *)
Definition responseErrorInterceptor
    (error : AxiosError) (returned : Promise) (w : World) : World :=
  if isCancel error then settle returned (Fulfilled Null) w
  else
    match retryable error w with
    | Some originalRequest =>
        let w1 := set_retry_field (<[originalRequest := true]> (retry_field w)) w in
        if isRefreshing w1 then
          subscribeRefresh (mkSubscriber error originalRequest returned) w1
        else
          SquareAxios_post_refresh (RefreshAwait originalRequest returned)
                                   (set_isRefreshing true w1)
    | None => settle returned (Rejected error) w
    end.

(** Lines 45-60: the activation from the point where the awaited refresh
    promise has settled.  [return SquareAxios(originalRequest)] inside [try]
    is not awaited, so a failing replay does not reach the [catch] block. *)
Definition resume (j : Job) (w : World) : World :=
  match job_settlement j with
  | Fulfilled _ =>
      let w1 := set_isRefreshing false w in
      let w2 := onRefreshed true w1 in
      SquareAxios (job_originalRequest j) (job_returned j) w2
  | Rejected refreshError =>
      let w1 := set_isRefreshing false w in
      let w2 := onRefreshed false w1 in
      let w3 := if window_defined w2 then log (Navigate "/signin") w2 else w2 in
      settle (job_returned j) (Rejected refreshError) w3
  end.

(** ** The event loop *)

Inductive Reply :=
| Ok (data : nat)
| Err (error : AxiosError).

Inductive Event :=
| AppRequest (retry : option bool)
    (* application code calls the client; retry is the _retry field of the
       descriptor it passes, normally undefined *)
| Respond (x : nat) (r : Reply)
    (* the transport answers exchange x *)
| RunJob.
    (* the oldest scheduled resumption runs *)

(** [index.ts], line 11: a response passes through [(r) => r], an error
    through [responseErrorInterceptor]. *)
Definition step (ev : Event) (w : World) : World :=
  match ev with
  | AppRequest retry => dispatch retry (CallerPromise (next_ref w)) w
  | Respond x r =>
      match inflight w !! x with
      | None => w
      | Some k =>
          let w1 := set_inflight (delete x (inflight w)) w in
          match r with
          | Ok data => settle k (Fulfilled (Response data)) w1
          | Err error => responseErrorInterceptor error k w1
          end
      end
  | RunJob =>
      match jobs w with
      | [] => w
      | j :: rest => resume j (set_jobs rest w)
      end
  end.

Definition run (evs : list Event) (w : World) : World :=
  fold_left (fun w' ev => step ev w') evs w.

(** ** Reading a trace *)

Definition refresh_posts (t : list Effect) : list nat :=
  omap (fun e => match e with RefreshPost x => Some x | _ => None end) t.

Definition replays (t : list Effect) : list ConfigRef :=
  omap (fun e => match e with Replay c _ => Some c | _ => None end) t.

Definition navigations (t : list Effect) : list string :=
  omap (fun e => match e with Navigate href => Some href | _ => None end) t.

Definition settlements (t : list Effect) : list (nat * Settlement) :=
  omap (fun e => match e with Settle p s => Some (p, s) | _ => None end) t.

(** What the caller of an exchange observes for a reply, when the exchange's
    descriptor carries the retried marker: line 11 of [index.ts] followed by
    lines 23-25 and 63 of the interceptor. *)
Definition client_outcome (r : Reply) : Settlement :=
  match r with
  | Ok data => Fulfilled (Response data)
  | Err error => if isCancel error then Fulfilled Null else Rejected error
  end.

(** ** Expiry episodes *)

(** A request that is in flight and is answered with an error. *)
Record Failed := mkFailed {
  failed_request : ConfigRef;
  failed_error : AxiosError;
  failed_promise : Promise
}.

Definition failure_event (f : Failed) : Event :=
  Respond (failed_request f) (Err (failed_error f)).

(** The request of [f] is in flight in [w], was sent before [w], and its
    answer is a 401 naming its own descriptor, which is not marked. *)
Definition first_attempt_401 (w : World) (f : Failed) : Prop :=
  inflight w !! failed_request f = Some (failed_promise f) /\
  failed_request f < next_ref w /\
  isCancel (failed_error f) = false /\
  response_status (failed_error f) = Some 401 /\
  config (failed_error f) = Some (failed_request f) /\
  truthy (retry_field w !! failed_request f) = false.

(** The request was sent by application code: its promise is the caller's. *)
Definition from_caller (f : Failed) : Prop :=
  failed_promise f = CallerPromise (failed_request f).

Definition subscriber_of (f : Failed) : Subscriber :=
  mkSubscriber (failed_error f) (failed_request f) (failed_promise f).

Definition rejection (f : Failed) : Effect :=
  Settle (failed_request f) (Rejected (failed_error f)).

Definition mark_all (fs : list Failed) (m : gmap nat bool) : gmap nat bool :=
  fold_left (fun m' f => <[failed_request f := true]> m') fs m.

Definition answered (fs : list Failed) (m : gmap nat Promise)
  : gmap nat Promise :=
  fold_left (fun m' f => delete (failed_request f) m') fs m.

(** Replays sent one after the other, the first as exchange [x]. *)
Fixpoint replays_from (x : nat) (cs : list ConfigRef) : list Effect :=
  match cs with
  | [] => []
  | c :: cs' => Replay c x :: replays_from (S x) cs'
  end.

(** The world once [first] has opened the episode and the failures of [rest]
    have arrived while its refresh call was in flight. *)
Definition episode_opened (first : Failed) (rest : list Failed) (w : World)
  : World :=
  mkWorld true (refreshSubscribers w ++ (subscriber_of <$> rest))
    (mark_all rest
       (partial_alter (fun _ => None) (next_ref w)
          (<[failed_request first := true]> (retry_field w))))
    (answered rest
       (<[next_ref w := RefreshAwait (failed_request first) (failed_promise first)]>
          (delete (failed_request first) (inflight w))))
    (jobs w) (trace w ++ [RefreshPost (next_ref w)])
    (S (next_ref w)) (window_defined w).

(** The refresh call of the episode opened in [w] is answered with a
    response, and the suspended activation is resumed. *)
Definition refresh_succeeds (data : nat) (w : World) : list Event :=
  [Respond (next_ref w) (Ok data); RunJob].

(** The refresh call of the episode opened in [w] is answered with an
    error, and the suspended activation is resumed. *)
Definition refresh_fails (refreshError : AxiosError) (w : World) : list Event :=
  [Respond (next_ref w) (Err refreshError); RunJob].

(** ** Predicates on worlds and steps *)

Definition idle_without_subscribers (w : World) : Prop :=
  isRefreshing w = false -> refreshSubscribers w = [].

(** Exchange [x] was sent, is in flight for promise [k], and its descriptor
    carries the marker. *)
Definition awaits_marked (x : nat) (k : Promise) (w : World) : Prop :=
  x < next_ref w /\ inflight w !! x = Some k /\ retry_field w !! x = Some true.

(** The error of an exchange names the descriptor of that exchange. *)
Definition reply_names (x : nat) (r : Reply) : Prop :=
  match r with
  | Ok _ => True
  | Err error => config error = Some x
  end.

(** The navigations a step performs: the resumption of an activation whose
    refresh call was rejected navigates once, if there is a [window]. *)
Definition redirects (ev : Event) (w : World) : list string :=
  match ev, jobs w with
  | RunJob, j :: _ =>
      match job_settlement j with
      | Rejected _ => if window_defined w then ["/signin"%string] else []
      | Fulfilled _ => []
      end
  | _, _ => []
  end.

(** No resumption is scheduled and none can be: the flag is set, the job
    list is empty and every exchange in flight belongs to a caller's promise
    numbered [n] or more. *)
Definition stuck_since (n : nat) (w : World) : Prop :=
  isRefreshing w = true /\
  jobs w = [] /\
  n <= next_ref w /\
  (forall x k, inflight w !! x = Some k -> exists p, k = CallerPromise p /\ n <= p) /\
  navigations (trace w) = [] /\
  replays (trace w) = [] /\
  (forall p s, (p, s) ∈ settlements (trace w) -> n <= p).

(** ** Sample inputs and runs *)

Definition err401 (c : ConfigRef) : AxiosError :=
  mkAxiosError false (Some 401) (Some c) "Request failed with status code 401".

Definition err500 (c : ConfigRef) : AxiosError :=
  mkAxiosError false (Some 500) (Some c) "Request failed with status code 500".

Definition cancelled (c : ConfigRef) : AxiosError :=
  mkAxiosError true None (Some c) "canceled".

Definition err401_no_config : AxiosError :=
  mkAxiosError false (Some 401) None "Request failed with status code 401".

Definition failed_401 (c : ConfigRef) : Failed :=
  mkFailed c (err401 c) (CallerPromise c).

Definition abc_failed : list Failed := [failed_401 1; failed_401 2].

(** Requests 0, 1 and 2 are in flight. *)
Definition abc_world : World :=
  run [AppRequest None; AppRequest None; AppRequest None] (initial true).

(** Two requests are out, the first has failed with 401 and its refresh
    call is in flight as exchange 2. *)
Definition refreshing_world : World :=
  run [AppRequest None; AppRequest None; Respond 0 (Err (err401 0))]
      (initial true).

(** The replay of request 0, sent as exchange 1, fails with 401 again. *)
Definition replayed_world : World :=
  run [AppRequest None; Respond 0 (Err (err401 0)); Respond 1 (Ok 0); RunJob]
      (initial true).

(** Three requests fail with 401, the refresh call (exchange 3) succeeds
    and the suspended activation is resumed. *)
Definition abc_refreshed : list Event :=
  [AppRequest None; AppRequest None; AppRequest None;
   Respond 0 (Err (err401 0)); Respond 1 (Err (err401 1));
   Respond 2 (Err (err401 2)); Respond 3 (Ok 0); RunJob].

(** Three requests fail with 401 and the refresh call (exchange 3) fails
    with 500. *)
Definition abc_refresh_500 : list Event :=
  [AppRequest None; AppRequest None; AppRequest None;
   Respond 0 (Err (err401 0)); Respond 1 (Err (err401 1));
   Respond 2 (Err (err401 2)); Respond 3 (Err (err500 3)); RunJob].

(** Three requests fail with 401 and the refresh call (exchange 3) is
    itself answered with 401. *)
Definition abc_refresh_401 : list Event :=
  [AppRequest None; AppRequest None; AppRequest None;
   Respond 0 (Err (err401 0)); Respond 1 (Err (err401 1));
   Respond 2 (Err (err401 2)); Respond 3 (Err (err401 3)); RunJob].

(** ** Further vocabulary *)

(** What [onRefreshed(false)] hands to the subscribers: a caller's promise
    is rejected on the spot, an awaiting activation gets a resumption. *)
Definition rejected_callers (subs : list Subscriber) : list (nat * Settlement) :=
  omap (fun s => match sub_promise s with
                 | CallerPromise p => Some (p, Rejected (sub_error s))
                 | RefreshAwait _ _ => None
                 end) subs.

Definition rejected_awaits (subs : list Subscriber) : list Job :=
  omap (fun s => match sub_promise s with
                 | CallerPromise _ => None
                 | RefreshAwait c k => Some (mkJob c k (Rejected (sub_error s)))
                 end) subs.

(** Descriptor [x] exists in [w] and carries the marker. *)
Definition marked (x : ConfigRef) (w : World) : Prop :=
  x < next_ref w /\ retry_field w !! x = Some true.

(** Four requests are in flight. *)
Definition abcd_world : World :=
  run [AppRequest None; AppRequest None; AppRequest None; AppRequest None]
      (initial true).

(** The refresh is pending but nothing can end it: no resumption is
    scheduled and no exchange in flight belongs to an awaiting activation. *)
Definition deadlocked (w : World) : Prop :=
  isRefreshing w = true /\
  jobs w = [] /\
  forall x k, inflight w !! x = Some k -> exists p, k = CallerPromise p.

(** ** Phases of the module *)

Definition is_caller (k : Promise) : bool :=
  match k with
  | CallerPromise _ => true
  | RefreshAwait _ _ => false
  end.

(** The promise of an activation suspended at line 45 on behalf of a
    caller. *)
Definition is_await (k : Promise) : bool :=
  match k with
  | RefreshAwait _ (CallerPromise _) => true
  | _ => false
  end.

Definition callers_only (m : gmap nat Promise) : Prop :=
  forall x k, m !! x = Some k -> is_caller k = true.

Definition caller_subscribers (subs : list Subscriber) : Prop :=
  Forall (fun s => is_caller (sub_promise s) = true) subs.

(** Every exchange in flight was sent before the next fresh descriptor. *)
Definition sent_before (w : World) : Prop :=
  forall x k, inflight w !! x = Some k -> x < next_ref w.

Inductive Phase :=
| Idle
| RefreshInFlight (x : nat)
| ResumptionPending
| SelfQueued.

Definition in_phase (ph : Phase) (w : World) : Prop :=
  match ph with
  | Idle =>
      isRefreshing w = false /\ refreshSubscribers w = [] /\ jobs w = [] /\
      callers_only (inflight w)
  | RefreshInFlight x =>
      isRefreshing w = true /\ jobs w = [] /\
      caller_subscribers (refreshSubscribers w) /\
      (exists k, inflight w !! x = Some k /\ is_await k = true) /\
      callers_only (delete x (inflight w))
  | ResumptionPending =>
      isRefreshing w = true /\
      (exists j, jobs w = [j] /\ is_caller (job_returned j) = true) /\
      caller_subscribers (refreshSubscribers w) /\
      callers_only (inflight w)
  | SelfQueued =>
      isRefreshing w = true /\ jobs w = [] /\ callers_only (inflight w)
  end.

Definition well_phased (w : World) : Prop :=
  sent_before w /\ exists ph, in_phase ph w.

(** ** One retry per request, over whole runs *)

(** The exchanges that replays were sent as. *)
Definition replay_exchanges (t : list Effect) : list nat :=
  omap (fun e => match e with Replay _ x => Some x | _ => None end) t.

Definition awaited (k : Promise) : list ConfigRef :=
  match k with
  | CallerPromise _ => []
  | RefreshAwait c _ => [c]
  end.

(** The descriptors a later resumption would replay: those of the
    subscribers, and the one kept by the activation that awaits the refresh
    call or is scheduled to resume. *)
Definition pending (ph : Phase) (w : World) : list ConfigRef :=
  match ph with
  | Idle | SelfQueued => []
  | RefreshInFlight x =>
      (sub_originalRequest <$> refreshSubscribers w)
      ++ from_option awaited [] (inflight w !! x)
  | ResumptionPending =>
      (sub_originalRequest <$> refreshSubscribers w)
      ++ (job_originalRequest <$> jobs w)
  end.

(** The error of an exchange carries the descriptor of that exchange, or
    none. *)
Definition well_formed (ev : Event) : Prop :=
  match ev with
  | Respond x (Err error) => config error = None \/ config error = Some x
  | _ => True
  end.

Definition one_shot (ph : Phase) (w : World) : Prop :=
  NoDup (pending ph w) /\
  NoDup (replays (trace w)) /\
  NoDup (replay_exchanges (trace w)) /\
  (forall c, c ∈ pending ph w ->
     (c ∉ replays (trace w)) /\ (c ∉ replay_exchanges (trace w))) /\
  (forall c, c ∈ replays (trace w) -> c ∉ replay_exchanges (trace w)) /\
  (forall c, c ∈ pending ph w \/ c ∈ replays (trace w)
             \/ c ∈ replay_exchanges (trace w) -> marked c w).

Definition guarded (w : World) : Prop :=
  sent_before w /\ exists ph, in_phase ph w /\ one_shot ph w.

(** The episode of requests 0, 1, 2; the replay of request 1 (exchange 4)
    then fails with 401 again and the replay of request 2 succeeds. *)
Definition abc_replayed : list Event :=
  abc_refreshed ++ [Respond 4 (Err (err401 4)); Respond 5 (Ok 1)].

(** Three requests fail with 401 and the refresh call (exchange 3) has
    succeeded; the suspended activation has not yet been resumed. *)
Definition abc_refresh_answered : list Event :=
  [AppRequest None; AppRequest None; AppRequest None;
   Respond 0 (Err (err401 0)); Respond 1 (Err (err401 1));
   Respond 2 (Err (err401 2)); Respond 3 (Ok 0)].

(** * Properties *)

Ltac world w :=
  destruct w as [? ? ? ? ? ? ? ?]; simpl in *.

Lemma run_cons ev evs w : run (ev :: evs) w = run evs (step ev w).
Proof. done. Qed.

Lemma run_app evs1 evs2 w : run (evs1 ++ evs2) w = run evs2 (run evs1 w).
Proof. apply fold_left_app. Qed.

(** ** Settling touches nothing but the trace or the job list *)

Lemma settle_fields k s w :
  isRefreshing (settle k s w) = isRefreshing w /\
  refreshSubscribers (settle k s w) = refreshSubscribers w /\
  retry_field (settle k s w) = retry_field w /\
  inflight (settle k s w) = inflight w /\
  next_ref (settle k s w) = next_ref w /\
  window_defined (settle k s w) = window_defined w.
Proof. by destruct k, w. Qed.

Lemma settle_requests k s w :
  refresh_posts (trace (settle k s w)) = refresh_posts (trace w) /\
  replays (trace (settle k s w)) = replays (trace w) /\
  navigations (trace (settle k s w)) = navigations (trace w).
Proof.
  destruct k; world w; [|done].
  unfold refresh_posts, replays, navigations. rewrite !omap_app. simpl.
  by rewrite !app_nil_r.
Qed.

Lemma settle_caller p s w :
  trace (settle (CallerPromise p) s w) = trace w ++ [Settle p s] /\
  jobs (settle (CallerPromise p) s w) = jobs w.
Proof. by destruct w. Qed.

Lemma retryable_cases error w :
  retryable error w = None \/
  exists c, retryable error w = Some c /\
            response_status error = Some 401 /\ config error = Some c /\
            truthy (retry_field w !! c) = false.
Proof.
  unfold retryable, status_is.
  destruct (response_status error) as [s|]; [|by left].
  destruct (Nat.eqb_spec s 401) as [->|]; [|by left].
  destruct (config error) as [c|]; [|by left].
  destruct (truthy (retry_field w !! c)) eqn:E; simpl; [by left|].
  right. by exists c.
Qed.

Lemma retryable_first_attempt error w c :
  response_status error = Some 401 -> config error = Some c ->
  truthy (retry_field w !! c) = false ->
  retryable error w = Some c.
Proof.
  intros Hs Hc Ht. unfold retryable, status_is. by rewrite Hs, Hc, Ht.
Qed.

(** The activation falls through to line 63. *)
Lemma falls_through error returned w :
  isCancel error = false -> retryable error w = None ->
  responseErrorInterceptor error returned w = settle returned (Rejected error) w.
Proof. intros Hc Hr. unfold responseErrorInterceptor. by rewrite Hc, Hr. Qed.

(** C6: a cancelled request resolves with [null] whatever the refresh state
    is: the interceptor only settles the returned promise, fulfilled with
    [Null]; it leaves the flag, the subscriber list, every [_retry] field and
    the exchanges in flight as they were, and sends neither a refresh call
    nor a replay. *)
Theorem cancelled_request_resolves_null
    (error : AxiosError) (returned : Promise) (w : World) :
  isCancel error = true ->
  let w' := responseErrorInterceptor error returned w in
  w' = settle returned (Fulfilled Null) w /\
  isRefreshing w' = isRefreshing w /\
  refreshSubscribers w' = refreshSubscribers w /\
  retry_field w' = retry_field w /\
  inflight w' = inflight w /\
  refresh_posts (trace w') = refresh_posts (trace w) /\
  replays (trace w') = replays (trace w) /\
  (forall p, returned = CallerPromise p ->
             trace w' = trace w ++ [Settle p (Fulfilled Null)]).
Proof.
  intros Hc w'. subst w'. unfold responseErrorInterceptor. rewrite Hc.
  pose proof (settle_fields returned (Fulfilled Null) w) as (?&?&?&?&_).
  pose proof (settle_requests returned (Fulfilled Null) w) as (?&?&_).
  repeat split; try done. intros p ->. apply settle_caller.
Qed.

Lemma cancelled_request_resolves_null_witness :
  trace (responseErrorInterceptor (cancelled 1) (CallerPromise 1) refreshing_world)
  = trace refreshing_world ++ [Settle 1 (Fulfilled Null)].
Proof.
  apply (cancelled_request_resolves_null (cancelled 1) (CallerPromise 1)
           refreshing_world); reflexivity.
Defined.

(** C8: a failure that is neither a cancellation nor a first-attempt 401 (a
    status other than 401, or a 401 whose descriptor already carries the
    marker) is rejected with the error it came with; no refresh call, no
    replay, no change to the flag, the subscribers or any [_retry] field. *)
Theorem other_failure_rejected_unchanged
    (error : AxiosError) (returned : Promise) (w : World) :
  isCancel error = false ->
  (response_status error <> Some 401 \/
   exists c, config error = Some c /\ truthy (retry_field w !! c) = true) ->
  let w' := responseErrorInterceptor error returned w in
  w' = settle returned (Rejected error) w /\
  isRefreshing w' = isRefreshing w /\
  refreshSubscribers w' = refreshSubscribers w /\
  retry_field w' = retry_field w /\
  inflight w' = inflight w /\
  refresh_posts (trace w') = refresh_posts (trace w) /\
  replays (trace w') = replays (trace w) /\
  (forall p, returned = CallerPromise p ->
             trace w' = trace w ++ [Settle p (Rejected error)]).
Proof.
  intros Hc Hother w'. subst w'.
  assert (retryable error w = None) as Hr.
  { destruct (retryable_cases error w) as [|(c&_&Hs&Hcfg&Ht)]; [done|].
    destruct Hother as [Hne|(c'&Hcfg'&Ht')]; [done|]. congruence. }
  rewrite (falls_through _ _ _ Hc Hr).
  pose proof (settle_fields returned (Rejected error) w) as (?&?&?&?&_).
  pose proof (settle_requests returned (Rejected error) w) as (?&?&_).
  repeat split; try done. intros p ->. apply settle_caller.
Qed.

Lemma other_failure_rejected_unchanged_witness :
  trace (responseErrorInterceptor (err500 1) (CallerPromise 1) refreshing_world)
  = trace refreshing_world ++ [Settle 1 (Rejected (err500 1))].
Proof.
  apply (other_failure_rejected_unchanged (err500 1) (CallerPromise 1)
           refreshing_world); [reflexivity| left; discriminate | reflexivity].
Defined.

(** C10: a 401 whose [error.config] is undefined is rejected with the error
    it came with: no marker is written, nobody is subscribed, no refresh
    call and no replay are sent. *)
Theorem missing_config_rejected_unchanged
    (error : AxiosError) (returned : Promise) (w : World) :
  isCancel error = false ->
  response_status error = Some 401 ->
  config error = None ->
  let w' := responseErrorInterceptor error returned w in
  w' = settle returned (Rejected error) w /\
  isRefreshing w' = isRefreshing w /\
  refreshSubscribers w' = refreshSubscribers w /\
  retry_field w' = retry_field w /\
  inflight w' = inflight w /\
  refresh_posts (trace w') = refresh_posts (trace w) /\
  replays (trace w') = replays (trace w) /\
  (forall p, returned = CallerPromise p ->
             trace w' = trace w ++ [Settle p (Rejected error)]).
Proof.
  intros Hc Hs Hcfg w'. subst w'.
  assert (retryable error w = None) as Hr.
  { unfold retryable. rewrite Hcfg. by destruct (status_is error 401). }
  rewrite (falls_through _ _ _ Hc Hr).
  pose proof (settle_fields returned (Rejected error) w) as (?&?&?&?&_).
  pose proof (settle_requests returned (Rejected error) w) as (?&?&_).
  repeat split; try done. intros p ->. apply settle_caller.
Qed.

Lemma missing_config_rejected_unchanged_witness :
  trace (responseErrorInterceptor err401_no_config (CallerPromise 1) (initial true))
  = [Settle 1 (Rejected err401_no_config)].
Proof.
  apply (missing_config_rejected_unchanged err401_no_config (CallerPromise 1)
           (initial true)); reflexivity.
Defined.

(** ** The one-shot guard *)

(** A replay is sent with the [_retry] field of the descriptor it replays. *)
Lemma SquareAxios_sent c k w :
  inflight (SquareAxios c k w) !! next_ref w = Some k /\
  retry_field (SquareAxios c k w) !! next_ref w = retry_field w !! c /\
  next_ref (SquareAxios c k w) = S (next_ref w) /\
  trace (SquareAxios c k w) = trace w ++ [Replay c (next_ref w)].
Proof.
  world w. repeat split.
  - apply lookup_insert_eq.
  - apply lookup_partial_alter_eq.
Qed.

(** C4: a 401 on a request whose descriptor already carries the marker is
    rejected with that error, with no refresh call and no replay; and the
    replay of a marked descriptor is itself sent marked, observed by the
    promise it was sent for, so that a replay failing with 401 is such a
    request. *)
Theorem retried_request_not_retried_again
    (error : AxiosError) (returned : Promise) (c : ConfigRef) (w : World) :
  isCancel error = false ->
  response_status error = Some 401 ->
  config error = Some c ->
  retry_field w !! c = Some true ->
  let w' := responseErrorInterceptor error returned w in
  (w' = settle returned (Rejected error) w /\
   isRefreshing w' = isRefreshing w /\
   refreshSubscribers w' = refreshSubscribers w /\
   retry_field w' = retry_field w /\
   inflight w' = inflight w /\
   refresh_posts (trace w') = refresh_posts (trace w) /\
   replays (trace w') = replays (trace w) /\
   (forall p, returned = CallerPromise p ->
              trace w' = trace w ++ [Settle p (Rejected error)])) /\
  (forall k, let w1 := SquareAxios c k w in
             inflight w1 !! next_ref w = Some k /\
             retry_field w1 !! next_ref w = Some true).
Proof.
  intros Hc Hs Hcfg Hm w'. subst w'. split.
  - assert (retryable error w = None) as Hr.
    { unfold retryable. by rewrite Hcfg, Hm; destruct (status_is error 401). }
    rewrite (falls_through _ _ _ Hc Hr).
    pose proof (settle_fields returned (Rejected error) w) as (?&?&?&?&_).
    pose proof (settle_requests returned (Rejected error) w) as (?&?&_).
    repeat split; try done. intros p ->. apply settle_caller.
  - intros k w1. subst w1.
    destruct (SquareAxios_sent c k w) as (Hi&Hrf&_). by rewrite Hrf.
Qed.

Lemma retried_request_not_retried_again_witness :
  trace (step (Respond 2 (Err (err401 2))) replayed_world)
  = [RefreshPost 1; Replay 0 2; Settle 0 (Rejected (err401 2))].
Proof.
  apply (retried_request_not_retried_again (err401 2) (CallerPromise 0) 2
           (set_inflight (delete 2 (inflight replayed_world)) replayed_world));
    reflexivity.
Defined.

(** ** State invariant *)

Lemma SquareAxios_fields c k w :
  isRefreshing (SquareAxios c k w) = isRefreshing w /\
  refreshSubscribers (SquareAxios c k w) = refreshSubscribers w /\
  jobs (SquareAxios c k w) = jobs w /\
  window_defined (SquareAxios c k w) = window_defined w.
Proof. by destruct w. Qed.

Lemma callback_fields s ok w :
  isRefreshing (callback s ok w) = isRefreshing w /\
  refreshSubscribers (callback s ok w) = refreshSubscribers w /\
  window_defined (callback s ok w) = window_defined w.
Proof.
  unfold callback. destruct ok; simpl.
  - by destruct (SquareAxios_fields (sub_originalRequest s) (sub_promise s) w)
      as (?&?&_&?).
  - by destruct (settle_fields (sub_promise s) (Rejected (sub_error s)) w)
      as (?&?&_&_&_&?).
Qed.

Lemma drain_fields subs ok w :
  let w' := fold_left (fun w' cb => callback cb ok w') subs w in
  isRefreshing w' = isRefreshing w /\
  refreshSubscribers w' = refreshSubscribers w /\
  window_defined w' = window_defined w.
Proof.
  revert w. induction subs as [|s subs IH]; intros w; simpl; [done|].
  destruct (IH (callback s ok w)) as (->&->&->). apply callback_fields.
Qed.

Lemma onRefreshed_fields ok w :
  isRefreshing (onRefreshed ok w) = isRefreshing w /\
  refreshSubscribers (onRefreshed ok w) = [] /\
  window_defined (onRefreshed ok w) = window_defined w.
Proof.
  unfold onRefreshed.
  destruct (drain_fields (refreshSubscribers w) ok w) as (Hf&_&Hw).
  simpl in Hf, Hw. by destruct (fold_left _ _ _).
Qed.

(** Once the awaited refresh has settled, lines 47-48 or 52-53 run without
    a suspension point in between. *)
Lemma resume_idle j w :
  isRefreshing (resume j w) = false /\ refreshSubscribers (resume j w) = [].
Proof.
  assert (forall ok, isRefreshing (onRefreshed ok (set_isRefreshing false w)) = false
                     /\ refreshSubscribers (onRefreshed ok (set_isRefreshing false w)) = [])
    as Hdrained.
  { intros ok.
    destruct (onRefreshed_fields ok (set_isRefreshing false w)) as (->&->&_).
    by destruct w. }
  unfold resume. destruct (job_settlement j) as [v|refreshError].
  - destruct (SquareAxios_fields (job_originalRequest j) (job_returned j)
                (onRefreshed true (set_isRefreshing false w))) as (->&->&_).
    apply Hdrained.
  - match goal with |- context [settle ?k ?s ?w0] =>
      destruct (settle_fields k s w0) as (->&->&_) end.
    destruct (Hdrained false) as [Hf Hs]. simpl.
    destruct (onRefreshed false (set_isRefreshing false w))
      as [? ? ? ? ? ? ? win]; simpl in *.
    by destruct win.
Qed.

Lemma interceptor_keeps_invariant error returned w :
  idle_without_subscribers w ->
  idle_without_subscribers (responseErrorInterceptor error returned w).
Proof.
  unfold idle_without_subscribers, responseErrorInterceptor. intros Hinv.
  destruct (isCancel error).
  { by destruct (settle_fields returned (Fulfilled Null) w) as (->&->&_). }
  destruct (retryable error w) as [c|].
  - destruct w as [flag ? ? ? ? ? ? ?]; simpl in *.
    destruct flag; simpl; [congruence|done].
  - by destruct (settle_fields returned (Rejected error) w) as (->&->&_).
Qed.

Lemma step_keeps_invariant ev w :
  idle_without_subscribers w -> idle_without_subscribers (step ev w).
Proof.
  intros Hinv. destruct ev as [retry|x r|]; simpl.
  - by destruct w.
  - destruct (inflight w !! x) as [k|]; [|done].
    assert (idle_without_subscribers (set_inflight (delete x (inflight w)) w))
      as Hinv1 by (by destruct w).
    destruct r as [data|error].
    + unfold idle_without_subscribers.
      match goal with |- context [settle ?k ?s ?w0] =>
        by destruct (settle_fields k s w0) as (->&->&_) end.
    + by apply interceptor_keeps_invariant.
  - destruct (jobs w) as [|j rest]; [done|].
    intros _. apply resume_idle.
Qed.

Lemma run_keeps_invariant evs w :
  idle_without_subscribers w -> idle_without_subscribers (run evs w).
Proof.
  revert w. induction evs as [|ev evs IH]; intros w Hinv; simpl; [done|].
  by apply IH, step_keeps_invariant.
Qed.


(** ** Opening an episode *)

Lemma answered_lookup fs m x :
  x ∉ failed_request <$> fs -> answered fs m !! x = m !! x.
Proof.
  revert m. induction fs as [|f fs IH]; intros m Hx; simpl in *; [done|].
  apply not_elem_of_cons in Hx as [Hne Hx].
  unfold answered in *. simpl. rewrite IH by done. by apply lookup_delete_ne.
Qed.

Lemma mark_all_lookup_notin fs m c :
  c ∉ failed_request <$> fs -> mark_all fs m !! c = m !! c.
Proof.
  revert m. induction fs as [|f fs IH]; intros m Hc; simpl in *; [done|].
  apply not_elem_of_cons in Hc as [Hne Hc].
  unfold mark_all in *. simpl. rewrite IH by done. by apply lookup_insert_ne.
Qed.

Lemma mark_all_lookup_in fs m c :
  c ∈ failed_request <$> fs -> mark_all fs m !! c = Some true.
Proof.
  revert m. induction fs as [|f fs IH]; intros m Hc; simpl in *.
  { by apply elem_of_nil in Hc. }
  unfold mark_all in *. simpl.
  destruct (decide (c ∈ failed_request <$> fs)) as [Hin|Hout].
  - by apply IH.
  - apply elem_of_cons in Hc as [->|Hin]; [|done].
    fold (mark_all fs (<[failed_request f:=true]> m)).
    rewrite mark_all_lookup_notin by done. apply lookup_insert_eq.
Qed.

(** A first-attempt 401 answered while a refresh is in flight. *)
Lemma step_enqueues f w :
  isRefreshing w = true -> first_attempt_401 w f ->
  step (failure_event f) w =
  mkWorld true (refreshSubscribers w ++ [subscriber_of f])
          (<[failed_request f := true]> (retry_field w))
          (delete (failed_request f) (inflight w))
          (jobs w) (trace w) (next_ref w) (window_defined w).
Proof.
  intros Hflag (Hin & _ & Hc & Hs & Hcfg & Hm).
  unfold failure_event. simpl. rewrite Hin.
  unfold responseErrorInterceptor. rewrite Hc.
  rewrite (retryable_first_attempt _ _ (failed_request f)) by (by destruct w).
  world w. by subst.
Qed.

(** A first-attempt 401 answered while no refresh is in flight. *)
Lemma step_opens f w :
  isRefreshing w = false -> first_attempt_401 w f ->
  step (failure_event f) w =
  mkWorld true (refreshSubscribers w)
          (partial_alter (fun _ => None) (next_ref w)
             (<[failed_request f := true]> (retry_field w)))
          (<[next_ref w := RefreshAwait (failed_request f) (failed_promise f)]>
             (delete (failed_request f) (inflight w)))
          (jobs w) (trace w ++ [RefreshPost (next_ref w)])
          (S (next_ref w)) (window_defined w).
Proof.
  intros Hflag (Hin & _ & Hc & Hs & Hcfg & Hm).
  unfold failure_event. simpl. rewrite Hin.
  unfold responseErrorInterceptor. rewrite Hc.
  rewrite (retryable_first_attempt _ _ (failed_request f)) by (by destruct w).
  world w. by subst.
Qed.

Lemma waiters_enqueued rest w :
  isRefreshing w = true ->
  Forall (first_attempt_401 w) rest ->
  NoDup (failed_request <$> rest) ->
  run (failure_event <$> rest) w =
  mkWorld true (refreshSubscribers w ++ (subscriber_of <$> rest))
          (mark_all rest (retry_field w)) (answered rest (inflight w))
          (jobs w) (trace w) (next_ref w) (window_defined w).
Proof.
  revert w. induction rest as [|f rest IH]; intros w Hflag Hall Hnd.
  { world w. rewrite app_nil_r. by subst. }
  apply Forall_cons in Hall as [Hf Hall]. simpl in Hnd.
  apply NoDup_cons in Hnd as [Hnotin Hnd].
  rewrite fmap_cons, run_cons, (step_enqueues f w Hflag Hf).
  rewrite IH; simpl; [|done| |done].
  - by rewrite <- app_assoc.
  - apply Forall_forall. intros g Hg.
    rewrite Forall_forall in Hall. destruct (Hall g Hg) as (?&?&?&?&?&?).
    assert (failed_request g <> failed_request f) as Hne.
    { intros Heq. apply Hnotin. rewrite <- Heq. by apply list_elem_of_fmap_2. }
    repeat split; simpl; try done.
    + by rewrite lookup_delete_ne.
    + by rewrite lookup_insert_ne.
Qed.

Lemma run_opens_episode first rest w :
  isRefreshing w = false ->
  Forall (first_attempt_401 w) (first :: rest) ->
  NoDup (failed_request <$> (first :: rest)) ->
  run (failure_event <$> (first :: rest)) w = episode_opened first rest w.
Proof.
  intros Hflag Hall Hnd.
  apply Forall_cons in Hall as [Hf Hall]. simpl in Hnd.
  apply NoDup_cons in Hnd as [Hnotin Hnd].
  rewrite fmap_cons, run_cons, (step_opens first w Hflag Hf).
  rewrite waiters_enqueued; [done|done| |done].
  apply Forall_forall. intros g Hg.
  rewrite Forall_forall in Hall. destruct (Hall g Hg) as (?&?&?&?&?&?).
  assert (failed_request g <> failed_request first) as Hne.
  { intros Heq. apply Hnotin. rewrite <- Heq. by apply list_elem_of_fmap_2. }
  assert (next_ref w <> failed_request g) as Hfresh by lia.
  repeat split; simpl; try done.
  - rewrite lookup_insert_ne by done. by rewrite lookup_delete_ne.
  - lia.
  - rewrite lookup_partial_alter_ne by done. by rewrite lookup_insert_ne.
Qed.

(** C1: when [N >= 1] requests in flight are answered with a first-attempt
    401, starting with no refresh in flight, the first answer sets
    [isRefreshing] and sends the refresh POST, every later one is appended to
    [refreshSubscribers] and sends nothing: the trace grows by exactly one
    refresh call, whatever [N] is. *)
Theorem single_refresh_call (first : Failed) (rest : list Failed) (w : World) :
  isRefreshing w = false ->
  Forall (first_attempt_401 w) (first :: rest) ->
  NoDup (failed_request <$> (first :: rest)) ->
  let w1 := step (failure_event first) w in
  let w' := run (failure_event <$> (first :: rest)) w in
  (isRefreshing w1 = true /\
   trace w1 = trace w ++ [RefreshPost (next_ref w)] /\
   inflight w1 !! next_ref w
     = Some (RefreshAwait (failed_request first) (failed_promise first)) /\
   refreshSubscribers w1 = refreshSubscribers w) /\
  (isRefreshing w' = true /\
   trace w' = trace w ++ [RefreshPost (next_ref w)] /\
   refreshSubscribers w' = refreshSubscribers w ++ (subscriber_of <$> rest) /\
   refresh_posts (trace w') = refresh_posts (trace w) ++ [next_ref w]).
Proof.
  intros Hflag Hall Hnd w1 w'. subst w1 w'.
  rewrite run_opens_episode by done.
  apply Forall_cons in Hall as [Hf _].
  rewrite (step_opens first w Hflag Hf). simpl.
  repeat split; try done.
  - apply lookup_insert_eq.
  - unfold refresh_posts. by rewrite omap_app.
Qed.

Lemma abc_first_attempts :
  Forall (first_attempt_401 abc_world) [failed_401 0; failed_401 1; failed_401 2].
Proof. repeat constructor; simpl; lia. Qed.

Lemma abc_distinct :
  NoDup (failed_request <$> [failed_401 0; failed_401 1; failed_401 2]).
Proof. by apply (bool_decide_unpack _). Qed.

Lemma single_refresh_call_witness :
  refresh_posts
    (trace (run (failure_event <$> [failed_401 0; failed_401 1; failed_401 2])
                abc_world)) = [3].
Proof.
  apply (single_refresh_call (failed_401 0) [failed_401 1; failed_401 2] abc_world
           eq_refl abc_first_attempts abc_distinct).
Defined.


(** ** Draining the subscribers after a successful refresh *)

Lemma SquareAxios_frame c k w x :
  x <> next_ref w ->
  inflight (SquareAxios c k w) !! x = inflight w !! x /\
  retry_field (SquareAxios c k w) !! x = retry_field w !! x.
Proof.
  intros Hne. world w. split.
  - by apply lookup_insert_ne.
  - by apply lookup_partial_alter_ne.
Qed.

Lemma replays_from_app x cs1 cs2 :
  replays_from x (cs1 ++ cs2)
  = replays_from x cs1 ++ replays_from (x + length cs1) cs2.
Proof.
  revert x. induction cs1 as [|c cs1 IH]; intros x; simpl.
  - by rewrite Nat.add_0_r.
  - rewrite IH. by replace (S x + length cs1) with (x + S (length cs1)) by lia.
Qed.

Lemma replays_replays_from x cs : replays (replays_from x cs) = cs.
Proof.
  revert x. induction cs as [|c cs IH]; intros x; [done|].
  simpl. unfold replays in *. simpl. by rewrite IH.
Qed.

Lemma drain_replays subs w :
  let w' := fold_left (fun w' cb => callback cb true w') subs w in
  trace w' = trace w ++ replays_from (next_ref w) (sub_originalRequest <$> subs) /\
  next_ref w' = next_ref w + length subs /\
  jobs w' = jobs w /\
  (forall x, x < next_ref w ->
     inflight w' !! x = inflight w !! x /\
     retry_field w' !! x = retry_field w !! x) /\
  (forall i s, subs !! i = Some s ->
     inflight w' !! (next_ref w + i) = Some (sub_promise s) /\
     (sub_originalRequest s < next_ref w ->
      retry_field w' !! (next_ref w + i) = retry_field w !! sub_originalRequest s)).
Proof.
  revert w. induction subs as [|s subs IH]; intros w; simpl.
  { rewrite app_nil_r. repeat split; try done; lia. }
  set (w1 := callback s true w).
  destruct (IH w1) as (Ht & Hn & Hj & Hframe & Hsent). clear IH.
  destruct (SquareAxios_sent (sub_originalRequest s) (sub_promise s) w)
    as (Hi1 & Hr1 & Hn1 & Ht1).
  change (SquareAxios (sub_originalRequest s) (sub_promise s) w) with w1 in *.
  rewrite Hn1 in *.
  refine (conj _ (conj _ (conj _ (conj _ _)))).
  - rewrite Ht, Ht1, <- app_assoc. reflexivity.
  - lia.
  - rewrite Hj. apply (SquareAxios_fields _ _ w).
  - intros x Hx. destruct (Hframe x) as [-> ->]; [lia|].
    apply (SquareAxios_frame _ _ w). lia.
  - intros i s' Hi. destruct i as [|i]; simpl in Hi.
    + injection Hi as <-. rewrite Nat.add_0_r.
      destruct (Hframe (next_ref w)) as [-> ->]; [lia|]. done.
    + replace (next_ref w + S i) with (S (next_ref w) + i) by lia.
      destruct (Hsent i s' Hi) as [Hi' Hr']. split; [done|].
      intros Hlt. rewrite Hr' by lia.
      apply (SquareAxios_frame _ _ w). lia.
Qed.

(** ** A successful episode *)

Lemma episode_succeeds first rest data w :
  isRefreshing w = false ->
  refreshSubscribers w = [] ->
  jobs w = [] ->
  Forall (first_attempt_401 w) (first :: rest) ->
  NoDup (failed_request <$> (first :: rest)) ->
  let w' := run ((failure_event <$> (first :: rest)) ++ refresh_succeeds data w) w in
  isRefreshing w' = false /\
  refreshSubscribers w' = [] /\
  jobs w' = [] /\
  trace w' = trace w ++ RefreshPost (next_ref w)
               :: replays_from (S (next_ref w)) (failed_request <$> (rest ++ [first])) /\
  next_ref w' = S (S (next_ref w)) + length rest /\
  (forall i f, (rest ++ [first]) !! i = Some f ->
     inflight w' !! (S (next_ref w) + i) = Some (failed_promise f) /\
     retry_field w' !! (S (next_ref w) + i) = Some true).
Proof.
  intros Hflag Hsubs Hjobs Hall Hnd w'. subst w'.
  rewrite run_app, run_opens_episode by done.
  pose proof Hall as Hall'. apply Forall_cons in Hall' as [Hfirst Hrest].
  pose proof Hnd as Hnd'. rewrite fmap_cons in Hnd'.
  apply NoDup_cons in Hnd' as [Hnotin _].
  assert (forall f, f ∈ rest -> failed_request f < next_ref w) as Hlt.
  { intros f Hf. rewrite Forall_forall in Hrest. by destruct (Hrest f Hf) as (_&?&_). }
  assert (next_ref w ∉ failed_request <$> rest) as Hfresh.
  { intros (f & Heq & Hf)%list_elem_of_fmap_1. specialize (Hlt f Hf). lia. }
  destruct Hfirst as (_ & Hlt1 & _).
  unfold refresh_succeeds. rewrite !run_cons. change (run [] ?w0) with w0.
  assert (step (Respond (next_ref w) (Ok data)) (episode_opened first rest w)
          = set_jobs [mkJob (failed_request first) (failed_promise first)
                            (Fulfilled (Response data))]
              (set_inflight (delete (next_ref w)
                               (inflight (episode_opened first rest w)))
                 (episode_opened first rest w))) as ->.
  { unfold step, episode_opened. cbn [inflight].
    rewrite answered_lookup, lookup_insert_eq by done.
    by rewrite Hjobs. }
  unfold episode_opened. rewrite Hsubs, Hjobs. simpl.
  unfold resume, onRefreshed. simpl.
  match goal with |- context [fold_left ?f ?l ?w0] =>
    pose proof (drain_replays l w0) as Hdrain;
    pose proof (drain_fields l true w0) as Hfields;
    destruct (fold_left f l w0) as [dflag dsubs dretry dflight djs dt dn dwin]
  end.
  simpl in Hdrain, Hfields |- *.
  destruct Hdrain as (Ht & Hn & Hj & Hframe & Hsent).
  destruct Hfields as (Hf & _ & _).
  rewrite length_fmap in Hn. subst dt dn djs dflag.
  refine (conj _ (conj _ (conj _ (conj _ (conj _ _))))); try done.
  - rewrite fmap_app, replays_from_app, <- !app_assoc. simpl.
    by rewrite <- list_fmap_compose, length_fmap.
  - intros i f Hi. apply lookup_app_Some in Hi as [Hi|[Hlen Hi]].
    + assert (i < length rest) as Hil by (by eapply lookup_lt_Some).
      destruct (Hsent i (subscriber_of f)) as [Hin Hre].
      { by rewrite list_lookup_fmap, Hi. }
      simpl in Hin, Hre.
      rewrite lookup_insert_ne, lookup_partial_alter_ne by lia.
      split; [done|]. rewrite Hre.
      * apply mark_all_lookup_in. apply list_elem_of_fmap_2.
        by eapply list_elem_of_lookup_2.
      * assert (failed_request f < next_ref w); [|lia].
        apply Hlt. by eapply list_elem_of_lookup_2.
    + apply list_lookup_singleton_Some in Hi as [Hi <-].
      replace i with (length rest) by lia.
      rewrite lookup_insert_eq, lookup_partial_alter_eq. split; [done|].
      destruct (Hframe (failed_request first)) as [_ ->]; [lia|].
      rewrite mark_all_lookup_notin by done.
      rewrite lookup_partial_alter_ne by lia. apply lookup_insert_eq.
Qed.

(** ** A replay in flight stays as it was sent until it is answered *)

Lemma settle_keeps_marked x k k' s w :
  awaits_marked x k w -> awaits_marked x k (settle k' s w).
Proof.
  unfold awaits_marked.
  by destruct (settle_fields k' s w) as (_&_&->&->&->&_).
Qed.

Lemma dispatch_keeps_marked x k retry k' w :
  awaits_marked x k w -> awaits_marked x k (dispatch retry k' w).
Proof.
  unfold awaits_marked. world w. intros (Hlt & Hin & Hm).
  rewrite lookup_insert_ne, lookup_partial_alter_ne by lia.
  repeat split; [lia|done|done].
Qed.

Lemma SquareAxios_keeps_marked x k c k' w :
  awaits_marked x k w -> awaits_marked x k (SquareAxios c k' w).
Proof.
  intros H. unfold SquareAxios. apply dispatch_keeps_marked. by destruct w.
Qed.

Lemma callback_keeps_marked x k s ok w :
  awaits_marked x k w -> awaits_marked x k (callback s ok w).
Proof.
  intros H. unfold callback. destruct ok; simpl.
  - by apply SquareAxios_keeps_marked.
  - by apply settle_keeps_marked.
Qed.

Lemma onRefreshed_keeps_marked x k ok w :
  awaits_marked x k w -> awaits_marked x k (onRefreshed ok w).
Proof.
  intros H. unfold onRefreshed.
  assert (awaits_marked x k
            (fold_left (fun w' cb => callback cb ok w') (refreshSubscribers w) w))
    as Hd.
  2: { revert Hd. unfold awaits_marked. by destruct (fold_left _ _ _). }
  generalize (refreshSubscribers w). intros subs. revert w H.
  induction subs as [|s subs IH]; intros w H; simpl; [done|].
  by apply IH, callback_keeps_marked.
Qed.

Lemma resume_keeps_marked x k j w :
  awaits_marked x k w -> awaits_marked x k (resume j w).
Proof.
  intros H. unfold resume. destruct (job_settlement j) as [v|refreshError].
  - apply SquareAxios_keeps_marked, onRefreshed_keeps_marked. by destruct w.
  - apply settle_keeps_marked.
    assert (awaits_marked x k (onRefreshed false (set_isRefreshing false w)))
      as Hd by (apply onRefreshed_keeps_marked; by destruct w).
    destruct (window_defined _); [|done].
    revert Hd. unfold awaits_marked. by destruct (onRefreshed _ _).
Qed.

Lemma interceptor_keeps_marked x k error returned w :
  awaits_marked x k w ->
  awaits_marked x k (responseErrorInterceptor error returned w).
Proof.
  intros H. unfold responseErrorInterceptor.
  destruct (isCancel error); [by apply settle_keeps_marked|].
  destruct (retryable error w) as [c|]; [|by apply settle_keeps_marked].
  assert (awaits_marked x k
            (set_retry_field (<[c:=true]> (retry_field w)) w)) as H1.
  { revert H. unfold awaits_marked. world w. intros (Hlt & Hin & Hm).
    repeat split; try done.
    destruct (decide (c = x)) as [->|Hne].
    - apply lookup_insert_eq.
    - by rewrite lookup_insert_ne. }
  destruct (isRefreshing _).
  - revert H1. unfold awaits_marked, subscribeRefresh.
    by destruct (set_retry_field _ _).
  - unfold SquareAxios_post_refresh. apply dispatch_keeps_marked.
    revert H1. unfold awaits_marked. by destruct (set_retry_field _ _).
Qed.

Lemma step_keeps_marked x k ev w :
  awaits_marked x k w -> (forall r, ev <> Respond x r) ->
  awaits_marked x k (step ev w).
Proof.
  intros H Hev. destruct ev as [retry|y r|]; simpl.
  - by apply dispatch_keeps_marked.
  - destruct (inflight w !! y) as [k'|] eqn:Hy; [|done].
    assert (y <> x) as Hne by (intros ->; by apply (Hev r)).
    assert (awaits_marked x k (set_inflight (delete y (inflight w)) w)) as H1.
    { revert H. unfold awaits_marked. world w. intros (Hlt & Hin & Hm).
      repeat split; try done. by rewrite lookup_delete_ne. }
    destruct r as [data|error].
    + by apply settle_keeps_marked.
    + by apply interceptor_keeps_marked.
  - destruct (jobs w) as [|j rest] eqn:Hj; [done|].
    apply resume_keeps_marked. revert H. unfold awaits_marked. by destruct w.
Qed.

Lemma run_keeps_marked x k evs w :
  awaits_marked x k w -> Forall (fun ev => forall r, ev <> Respond x r) evs ->
  awaits_marked x k (run evs w).
Proof.
  revert w. induction evs as [|ev evs IH]; intros w H Hevs; [done|].
  apply Forall_cons in Hevs as [Hev Hevs].
  rewrite run_cons. apply IH; [|done]. by apply step_keeps_marked.
Qed.

(** The answer to a marked exchange goes to its promise as it is. *)
Lemma marked_reply x k r w :
  awaits_marked x k w -> reply_names x r ->
  step (Respond x r) w
  = settle k (client_outcome r) (set_inflight (delete x (inflight w)) w).
Proof.
  intros (Hlt & Hin & Hm) Hr. simpl. rewrite Hin.
  destruct r as [data|error]; [done|]. simpl in *.
  unfold responseErrorInterceptor. destruct (isCancel error); [done|].
  assert (retryable error (set_inflight (delete x (inflight w)) w) = None) as ->.
  { unfold retryable. rewrite Hr. world w. rewrite Hm. simpl.
    by destruct (status_is error 401). }
  done.
Qed.

(** C2: after [N >= 1] first-attempt 401 answers and a successful refresh,
    the trace holds the one refresh call followed by exactly one replay per
    failed request and no settlement; each replay is in flight for the
    promise of the request it replays, with the marker; and whatever happens
    in between, the answer to that replay (a response, an error, a
    cancellation) is what that promise settles with. *)
Theorem replay_after_successful_refresh
    (first : Failed) (rest : list Failed) (data : nat) (w : World) :
  isRefreshing w = false ->
  refreshSubscribers w = [] ->
  jobs w = [] ->
  Forall (first_attempt_401 w) (first :: rest) ->
  NoDup (failed_request <$> (first :: rest)) ->
  let w' := run ((failure_event <$> (first :: rest)) ++ refresh_succeeds data w) w in
  trace w' = trace w ++ RefreshPost (next_ref w)
               :: replays_from (S (next_ref w)) (failed_request <$> (rest ++ [first])) /\
  (forall i f, (rest ++ [first]) !! i = Some f ->
     let x := S (next_ref w) + i in
     inflight w' !! x = Some (failed_promise f) /\
     retry_field w' !! x = Some true /\
     forall evs r,
       Forall (fun ev => forall r', ev <> Respond x r') evs ->
       reply_names x r ->
       let w2 := run evs w' in
       step (Respond x r) w2
       = settle (failed_promise f) (client_outcome r)
                (set_inflight (delete x (inflight w2)) w2)).
Proof.
  intros Hflag Hsubs Hjobs Hall Hnd w'.
  destruct (episode_succeeds first rest data w Hflag Hsubs Hjobs Hall Hnd)
    as (_ & _ & _ & Ht & Hn & Hsent).
  fold w' in Ht, Hn, Hsent. split; [done|].
  intros i f Hi x. destruct (Hsent i f Hi) as [Hin Hm]. fold x in Hin, Hm.
  split; [done|]. split; [done|].
  intros evs r Hevs Hr w2. apply marked_reply; [|done].
  apply run_keeps_marked; [|done]. repeat split; try done.
  apply lookup_lt_Some in Hi. rewrite length_app in Hi. simpl in Hi.
  rewrite Hn. unfold x. lia.
Qed.

(** Requests 0, 1, 2 fail with 401, the refresh succeeds; then the replay of
    request 2 (exchange 5) succeeds and the replay of request 1 (exchange 4)
    fails with 401 again. *)
Lemma replay_after_successful_refresh_witness :
  let w' := run ((failure_event <$> (failed_401 0 :: abc_failed))
                 ++ refresh_succeeds 7 abc_world) abc_world in
  trace w' = [RefreshPost 3; Replay 1 4; Replay 2 5; Replay 0 6] /\
  trace (run [Respond 5 (Ok 9); Respond 4 (Err (err401 4))] w')
  = [RefreshPost 3; Replay 1 4; Replay 2 5; Replay 0 6;
     Settle 2 (Fulfilled (Response 9)); Settle 1 (Rejected (err401 4))].
Proof.
  intros w'.
  destruct (replay_after_successful_refresh (failed_401 0) abc_failed 7 abc_world
              eq_refl eq_refl eq_refl abc_first_attempts abc_distinct)
    as [Ht Hreplays].
  fold w' in Ht, Hreplays. split; [exact Ht|].
  destruct (Hreplays 0 (failed_401 1) eq_refl) as (_ & _ & Hanswer).
  refine (eq_trans (f_equal trace
            (Hanswer [Respond 5 (Ok 9)] (Err (err401 4)) _ eq_refl)) _).
  - repeat constructor; discriminate.
  - reflexivity.
Defined.

(** ** Order of the replays *)

(** C5, as the interceptor has it: after a successful refresh the replays
    are sent in this order: first those of the subscribers, in the order in
    which they subscribed, and last the replay of the request that started
    the refresh. *)
Theorem replay_order
    (first : Failed) (rest : list Failed) (data : nat) (w : World) :
  isRefreshing w = false ->
  refreshSubscribers w = [] ->
  jobs w = [] ->
  Forall (first_attempt_401 w) (first :: rest) ->
  NoDup (failed_request <$> (first :: rest)) ->
  let w' := run ((failure_event <$> (first :: rest)) ++ refresh_succeeds data w) w in
  replays (trace w')
  = replays (trace w) ++ (failed_request <$> rest) ++ [failed_request first].
Proof.
  intros Hflag Hsubs Hjobs Hall Hnd w'.
  destruct (episode_succeeds first rest data w Hflag Hsubs Hjobs Hall Hnd)
    as (_ & _ & _ & Ht & _).
  fold w' in Ht. rewrite Ht. unfold replays at 1. rewrite omap_app. simpl.
  fold (replays (trace w)).
  fold (replays (replays_from (S (next_ref w)) (failed_request <$> rest ++ [first]))).
  by rewrite replays_replays_from, fmap_app.
Qed.

Lemma replay_order_witness :
  replays (trace (run ((failure_event <$> (failed_401 0 :: abc_failed))
                       ++ refresh_succeeds 7 abc_world) abc_world))
  = [1; 2; 0].
Proof.
  apply (replay_order (failed_401 0) abc_failed 7 abc_world
           eq_refl eq_refl eq_refl abc_first_attempts abc_distinct).
Defined.

(** Request A (0) starts the refresh, B (1) and C (2) subscribe in that
    order, the refresh succeeds: the replays go out as B, C, A and not as
    A, B, C. *)
Lemma replay_order_counterexample :
  replays (trace (run abc_refreshed (initial true))) = [1; 2; 0] /\
  replays (trace (run abc_refreshed (initial true))) <> [0; 1; 2].
Proof. vm_compute. split; [reflexivity|discriminate]. Qed.


(** ** The redirect *)

Lemma navigations_snoc t e :
  navigations (t ++ [e])
  = navigations t ++ match e with Navigate href => [href] | _ => [] end.
Proof. unfold navigations. rewrite omap_app. by destruct e. Qed.

Lemma SquareAxios_navigations c k w :
  navigations (trace (SquareAxios c k w)) = navigations (trace w).
Proof. world w. by rewrite navigations_snoc, app_nil_r. Qed.

Lemma callback_navigations s ok w :
  navigations (trace (callback s ok w)) = navigations (trace w).
Proof.
  unfold callback. destruct ok; simpl.
  - apply SquareAxios_navigations.
  - apply settle_requests.
Qed.

Lemma onRefreshed_navigations ok w :
  navigations (trace (onRefreshed ok w)) = navigations (trace w).
Proof.
  unfold onRefreshed.
  assert (navigations (trace (fold_left (fun w' cb => callback cb ok w')
                                (refreshSubscribers w) w))
          = navigations (trace w)) as Hd.
  2: { rewrite <- Hd. by destruct (fold_left _ _ _). }
  generalize (refreshSubscribers w). intros subs.
  revert w. induction subs as [|s subs IH]; intros w; simpl; [done|].
  by rewrite IH, callback_navigations.
Qed.

Lemma interceptor_navigations error returned w :
  navigations (trace (responseErrorInterceptor error returned w))
  = navigations (trace w).
Proof.
  unfold responseErrorInterceptor.
  destruct (isCancel error); [apply settle_requests|].
  destruct (retryable error w) as [c|]; [|apply settle_requests].
  destruct w as [flag ? ? ? ? ? ? ?]; simpl.
  destruct flag; simpl; [done|]. by rewrite navigations_snoc, app_nil_r.
Qed.

Lemma resume_navigations j w :
  navigations (trace (resume j w))
  = navigations (trace w)
    ++ match job_settlement j with
       | Rejected _ => if window_defined w then ["/signin"%string] else []
       | Fulfilled _ => []
       end.
Proof.
  unfold resume. destruct (job_settlement j) as [v|refreshError].
  - rewrite SquareAxios_navigations, onRefreshed_navigations, app_nil_r.
    by destruct w.
  - match goal with |- context [settle ?k ?s ?w0] =>
      destruct (settle_requests k s w0) as (_&_&->) end.
    pose proof (onRefreshed_navigations false (set_isRefreshing false w)) as Hnav.
    destruct (onRefreshed_fields false (set_isRefreshing false w)) as (_&_&Hwin).
    destruct (onRefreshed false (set_isRefreshing false w))
      as [? ? ? ? ? ? ? win].
    world w. subst win. destruct window_defined0; simpl.
    + by rewrite navigations_snoc, Hnav.
    + by rewrite Hnav, app_nil_r.
Qed.

Lemma step_navigations ev w :
  navigations (trace (step ev w)) = navigations (trace w) ++ redirects ev w.
Proof.
  destruct ev as [retry|x r|]; simpl.
  - rewrite app_nil_r. by destruct w.
  - rewrite app_nil_r. destruct (inflight w !! x) as [k|]; [|done].
    destruct r as [data|error].
    + match goal with |- context [settle ?k ?s ?w0] =>
        destruct (settle_requests k s w0) as (_&_&->) end.
      by destruct w.
    + rewrite interceptor_navigations. by destruct w.
  - destruct (jobs w) as [|j rest]; [by rewrite app_nil_r|].
    rewrite resume_navigations. by destruct w.
Qed.

(** ** A failed episode *)

Lemma drain_rejects rest w :
  Forall from_caller rest ->
  fold_left (fun w' cb => callback cb false w') (subscriber_of <$> rest) w
  = mkWorld (isRefreshing w) (refreshSubscribers w) (retry_field w) (inflight w)
            (jobs w) (trace w ++ (rejection <$> rest)) (next_ref w)
            (window_defined w).
Proof.
  revert w. induction rest as [|f rest IH]; intros w Hall; simpl.
  { rewrite app_nil_r. by destruct w. }
  apply Forall_cons in Hall as [Hf Hall]. rewrite IH by done.
  unfold callback, subscriber_of, rejection. simpl. rewrite Hf.
  world w. by rewrite <- app_assoc.
Qed.

Lemma episode_fails first rest refreshError w :
  isRefreshing w = false ->
  refreshSubscribers w = [] ->
  jobs w = [] ->
  Forall (first_attempt_401 w) (first :: rest) ->
  Forall from_caller (first :: rest) ->
  NoDup (failed_request <$> (first :: rest)) ->
  isCancel refreshError = false ->
  response_status refreshError <> Some 401 ->
  let w' := run ((failure_event <$> (first :: rest))
                 ++ refresh_fails refreshError w) w in
  isRefreshing w' = false /\
  refreshSubscribers w' = [] /\
  jobs w' = [] /\
  next_ref w' = S (next_ref w) /\
  trace w' = trace w ++ RefreshPost (next_ref w) :: (rejection <$> rest)
               ++ (if window_defined w then [Navigate "/signin"] else [])
               ++ [Settle (failed_request first) (Rejected refreshError)].
Proof.
  intros Hflag Hsubs Hjobs Hall Hcallers Hnd Hc Hs w'. subst w'.
  rewrite run_app, run_opens_episode by done.
  apply Forall_cons in Hall as [_ Hrest].
  apply Forall_cons in Hcallers as [Hfirst Hcallers].
  assert (next_ref w ∉ failed_request <$> rest) as Hfresh.
  { intros (f & Heq & Hf)%list_elem_of_fmap_1.
    rewrite Forall_forall in Hrest. destruct (Hrest f Hf) as (_&?&_). lia. }
  assert (forall w0, retryable refreshError w0 = None) as Hr.
  { intros w0. destruct (retryable_cases refreshError w0) as [|(c&_&?&_)]; done. }
  unfold refresh_fails. rewrite !run_cons. change (run [] ?w0) with w0.
  assert (step (Respond (next_ref w) (Err refreshError)) (episode_opened first rest w)
          = set_jobs [mkJob (failed_request first) (failed_promise first)
                            (Rejected refreshError)]
              (set_inflight (delete (next_ref w)
                               (inflight (episode_opened first rest w)))
                 (episode_opened first rest w))) as ->.
  { unfold step, episode_opened. cbn [inflight].
    rewrite answered_lookup, lookup_insert_eq by done.
    rewrite falls_through by done. by rewrite Hjobs. }
  unfold episode_opened. rewrite Hsubs, Hjobs. simpl.
  unfold resume, onRefreshed. simpl.
  rewrite drain_rejects by done. simpl. rewrite Hfirst.
  destruct (window_defined w); simpl; repeat split; try done.
  - by rewrite <- !app_assoc.
  - by rewrite <- !app_assoc.
Qed.

Lemma navigations_rejections rest : navigations (rejection <$> rest) = [].
Proof. by induction rest. Qed.

(** C7, as the interceptor has it: when the activation that awaits the
    refresh call sees it rejected, it navigates to [/signin] exactly once if
    [window] is defined and not at all if it is not, whatever the number of
    subscribers; and no other step navigates: a step adds to the navigations
    exactly [redirects]. *)
Theorem redirect_on_rejected_refresh
    (first : Failed) (rest : list Failed) (refreshError : AxiosError) (w : World) :
  isRefreshing w = false ->
  refreshSubscribers w = [] ->
  jobs w = [] ->
  Forall (first_attempt_401 w) (first :: rest) ->
  Forall from_caller (first :: rest) ->
  NoDup (failed_request <$> (first :: rest)) ->
  isCancel refreshError = false ->
  response_status refreshError <> Some 401 ->
  let w' := run ((failure_event <$> (first :: rest))
                 ++ refresh_fails refreshError w) w in
  navigations (trace w')
  = navigations (trace w) ++ (if window_defined w then ["/signin"%string] else []) /\
  (forall ev w0,
     navigations (trace (step ev w0)) = navigations (trace w0) ++ redirects ev w0).
Proof.
  intros Hflag Hsubs Hjobs Hall Hcallers Hnd Hc Hs w'.
  destruct (episode_fails first rest refreshError w
              Hflag Hsubs Hjobs Hall Hcallers Hnd Hc Hs) as (_ & _ & _ & _ & Ht).
  fold w' in Ht. split; [|apply step_navigations].
  rewrite Ht. unfold navigations at 1. rewrite omap_app. simpl.
  rewrite !omap_app. fold (navigations (rejection <$> rest)).
  rewrite navigations_rejections. simpl.
  destruct (window_defined w); simpl; by rewrite ?app_nil_r.
Qed.

Lemma abc_from_caller :
  Forall from_caller [failed_401 0; failed_401 1; failed_401 2].
Proof. by repeat constructor. Qed.

Lemma redirect_on_rejected_refresh_witness :
  navigations
    (trace (run ((failure_event <$> (failed_401 0 :: abc_failed))
                 ++ refresh_fails (err500 3) abc_world) abc_world))
  = ["/signin"%string].
Proof.
  apply (redirect_on_rejected_refresh (failed_401 0) abc_failed (err500 3)
           abc_world eq_refl eq_refl eq_refl abc_first_attempts abc_from_caller
           abc_distinct eq_refl).
  discriminate.
Defined.

(** Where [window] is undefined the refresh fails, all three requests are
    rejected, and nothing navigates. *)
Lemma redirect_counterexample :
  let w := run abc_refresh_500 (initial false) in
  settlements (trace w)
  = [(1, Rejected (err401 1)); (2, Rejected (err401 2)); (0, Rejected (err500 3))] /\
  navigations (trace w) = [] /\
  length (navigations (trace w)) <> 1.
Proof. vm_compute. repeat split. discriminate. Qed.

(** ** A refresh call answered with 401 *)

Lemma settle_caller_stuck n p s w :
  n <= p ->
  stuck_since n w -> stuck_since n (settle (CallerPromise p) s w).
Proof.
  unfold stuck_since. world w.
  intros Hp (Hflag & Hjobs & Hn & Hin & Hnav & Hrep & Hset).
  repeat split; try done.
  - by rewrite navigations_snoc, app_nil_r.
  - unfold replays in *. by rewrite omap_app, Hrep.
  - intros q s'. unfold settlements in *. rewrite omap_app. simpl.
    intros [Hq|Hq]%elem_of_app; [by eapply Hset|].
    apply list_elem_of_singleton in Hq. by injection Hq as -> _.
Qed.

Lemma step_stuck n ev w : stuck_since n w -> stuck_since n (step ev w).
Proof.
  intros Hst. destruct ev as [retry|x r|]; simpl.
  - revert Hst. unfold stuck_since. destruct w as [? ? ? ? ? ? nr ?]; simpl.
    intros (Hflag & Hjobs & Hn & Hin & Hnav & Hrep & Hset).
    repeat split; try done; [lia|].
    intros x k. destruct (decide (nr = x)) as [<-|Hne].
    + rewrite lookup_insert_eq. intros [= <-]. by exists nr.
    + rewrite lookup_insert_ne by done. apply Hin.
  - destruct (inflight w !! x) as [k|] eqn:Hx; [|done].
    pose proof Hst as (Hflag & Hjobs & Hn & Hin & Hnav & Hrep & Hset).
    destruct (Hin x k Hx) as (p & -> & Hp).
    assert (stuck_since n (set_inflight (delete x (inflight w)) w)) as Hst1.
    { clear Hflag Hjobs Hn Hin Hnav Hrep Hset Hx. revert Hst.
      unfold stuck_since. world w.
      intros (Hflag & Hjobs & Hn & Hin & Hnav & Hrep & Hset).
      repeat split; try done.
      intros y k Hy. apply lookup_delete_Some in Hy as [_ Hy]. by eapply Hin. }
    destruct r as [data|error]; [by apply settle_caller_stuck|].
    unfold responseErrorInterceptor.
    destruct (isCancel error); [by apply settle_caller_stuck|].
    destruct (retryable error _) as [c|]; [|by apply settle_caller_stuck].
    revert Hst1. unfold stuck_since.
    destruct (set_inflight _ _) as [flag ? ? ? ? ? ? ?]; simpl.
    intros (-> & Hst1). simpl. by split.
  - destruct Hst as (Hflag & Hjobs & Hst). by rewrite Hjobs.
Qed.

Lemma run_stuck n evs w : stuck_since n w -> stuck_since n (run evs w).
Proof.
  revert w. induction evs as [|ev evs IH]; intros w Hst; [done|].
  rewrite run_cons. by apply IH, step_stuck.
Qed.

(** C3 at a refresh call answered with 401: the answer passes through the
    same interceptor, which subscribes it behind the refresh it is the
    answer to.  Nothing has been settled, nothing navigates, the flag stays
    set; and whatever happens afterwards, the promises of requests 0, 1 and
    2 are never settled, no replay is sent and nothing navigates. *)
Theorem refresh_answered_401_never_settles :
  let w := run abc_refresh_401 (initial true) in
  trace w = [RefreshPost 3] /\
  isRefreshing w = true /\
  jobs w = [] /\
  sub_promise <$> refreshSubscribers w
  = [CallerPromise 1; CallerPromise 2; RefreshAwait 0 (CallerPromise 0)] /\
  forall evs,
    let w' := run evs w in
    isRefreshing w' = true /\
    navigations (trace w') = [] /\
    replays (trace w') = [] /\
    forall p s, p < 3 -> (p, s) ∉ settlements (trace w').
Proof.
  intros w.
  assert (stuck_since 4 w) as Hst.
  { refine (conj _ (conj _ (conj _ (conj _ (conj _ (conj _ _)))))).
    - reflexivity.
    - reflexivity.
    - vm_compute. lia.
    - assert (inflight w = ∅) as -> by (vm_compute; reflexivity).
      intros x k Hx. by apply lookup_empty_Some in Hx.
    - reflexivity.
    - reflexivity.
    - assert (settlements (trace w) = []) as -> by reflexivity.
      intros p s Hp. by apply elem_of_nil in Hp. }
  do 4 (split; [vm_compute; reflexivity|]). intros evs w'.
  destruct (run_stuck 4 evs w Hst) as (Hflag & _ & _ & _ & Hnav & Hrep & Hset).
  fold w' in Hflag, Hnav, Hrep, Hset. repeat split; try done.
  intros p s Hp Hin. apply Hset in Hin. lia.
Qed.

(** * Further properties of the interceptor module *)

(** ** [onRefreshed] and [subscribeRefresh] *)

Lemma settlements_snoc t e :
  settlements (t ++ [e])
  = settlements t ++ match e with Settle p s => [(p, s)] | _ => [] end.
Proof. unfold settlements. rewrite omap_app. by destruct e. Qed.

Lemma refresh_posts_snoc t e :
  refresh_posts (t ++ [e])
  = refresh_posts t ++ match e with RefreshPost x => [x] | _ => [] end.
Proof. unfold refresh_posts. rewrite omap_app. by destruct e. Qed.

Lemma replays_snoc t e :
  replays (t ++ [e])
  = replays t ++ match e with Replay c _ => [c] | _ => [] end.
Proof. unfold replays. rewrite omap_app. by destruct e. Qed.

Lemma callback_commutes s ok l w :
  callback s ok (set_refreshSubscribers l w)
  = set_refreshSubscribers l (callback s ok w).
Proof. unfold callback. by destruct ok, (sub_promise s), w. Qed.

Lemma drain_commutes subs ok l w :
  fold_left (fun w' cb => callback cb ok w') subs (set_refreshSubscribers l w)
  = set_refreshSubscribers l (fold_left (fun w' cb => callback cb ok w') subs w).
Proof.
  revert w. induction subs as [|s subs IH]; intros w; simpl; [done|].
  by rewrite callback_commutes, IH.
Qed.

Lemma drain_rejections subs w :
  let w' := fold_left (fun w' cb => callback cb false w') subs w in
  isRefreshing w' = isRefreshing w /\
  retry_field w' = retry_field w /\
  inflight w' = inflight w /\
  next_ref w' = next_ref w /\
  jobs w' = jobs w ++ rejected_awaits subs /\
  settlements (trace w') = settlements (trace w) ++ rejected_callers subs /\
  refresh_posts (trace w') = refresh_posts (trace w) /\
  replays (trace w') = replays (trace w) /\
  navigations (trace w') = navigations (trace w).
Proof.
  revert w. induction subs as [|s subs IH]; intros w; simpl.
  { by rewrite !app_nil_r. }
  destruct (IH (callback s false w)) as (-> & -> & -> & -> & -> & -> & -> & -> & ->).
  clear IH. unfold callback, rejected_awaits, rejected_callers. simpl.
  destruct (sub_promise s) as [p|c k]; destruct w; simpl;
    rewrite ?settlements_snoc, ?refresh_posts_snoc, ?replays_snoc,
      ?navigations_snoc, ?app_nil_r, <- ?app_assoc; done.
Qed.

(** X1: [onRefreshed(false)] rejects every subscriber with the error that
    subscriber was created for, in subscription order (a caller's promise is
    settled, an awaiting activation is scheduled), empties the list, and
    sends nothing: no request, no navigation, no change to the flag, the
    markers or the exchanges in flight. *)
Theorem onRefreshed_false_rejects_all (w : World) :
  let w' := onRefreshed false w in
  refreshSubscribers w' = [] /\
  isRefreshing w' = isRefreshing w /\
  retry_field w' = retry_field w /\
  inflight w' = inflight w /\
  next_ref w' = next_ref w /\
  jobs w' = jobs w ++ rejected_awaits (refreshSubscribers w) /\
  settlements (trace w')
  = settlements (trace w) ++ rejected_callers (refreshSubscribers w) /\
  refresh_posts (trace w') = refresh_posts (trace w) /\
  replays (trace w') = replays (trace w) /\
  navigations (trace w') = navigations (trace w).
Proof.
  intros w'. subst w'. unfold onRefreshed.
  pose proof (drain_rejections (refreshSubscribers w) w) as H. simpl in H.
  by destruct (fold_left _ _ _).
Qed.

(** X2: [onRefreshed(true)] sends one replay per subscriber, in
    subscription order and as consecutive exchanges, each in flight for the
    promise of its subscriber; it settles and schedules nothing, leaves the
    older exchanges and markers as they were, and empties the list. *)
Theorem onRefreshed_true_replays_all (w : World) :
  let w' := onRefreshed true w in
  refreshSubscribers w' = [] /\
  isRefreshing w' = isRefreshing w /\
  jobs w' = jobs w /\
  next_ref w' = next_ref w + length (refreshSubscribers w) /\
  trace w' = trace w ++ replays_from (next_ref w)
                          (sub_originalRequest <$> refreshSubscribers w) /\
  (forall i s, refreshSubscribers w !! i = Some s ->
     inflight w' !! (next_ref w + i) = Some (sub_promise s)) /\
  (forall x, x < next_ref w ->
     inflight w' !! x = inflight w !! x /\
     retry_field w' !! x = retry_field w !! x).
Proof.
  intros w'. subst w'. unfold onRefreshed.
  pose proof (drain_replays (refreshSubscribers w) w) as Hd.
  pose proof (drain_fields (refreshSubscribers w) true w) as Hf.
  simpl in Hd, Hf. destruct (fold_left _ _ _). simpl in *.
  destruct Hd as (Ht & Hn & Hj & Hframe & Hsent). destruct Hf as (Hflag & _).
  repeat split; try done.
  - intros i s Hi. by destruct (Hsent i s Hi).
  - by destruct (Hframe x).
  - by destruct (Hframe x).
Qed.

(** X3: the subscribers are served once: a second [onRefreshed], with
    either outcome, right after a first one changes nothing. *)
Theorem onRefreshed_twice (ok ok' : bool) (w : World) :
  onRefreshed ok' (onRefreshed ok w) = onRefreshed ok w.
Proof.
  unfold onRefreshed at 1.
  destruct (onRefreshed_fields ok w) as (_ & -> & _). simpl.
  unfold onRefreshed. by destruct (fold_left _ _ _).
Qed.

(** X4: a callback registered with [subscribeRefresh] is called last:
    draining after the registration is draining before it, followed by that
    callback. *)
Theorem subscriber_served_last (cb : Subscriber) (ok : bool) (w : World) :
  onRefreshed ok (subscribeRefresh cb w) = callback cb ok (onRefreshed ok w).
Proof.
  unfold onRefreshed, subscribeRefresh.
  assert (refreshSubscribers
            (set_refreshSubscribers (refreshSubscribers w ++ [cb]) w)
          = refreshSubscribers w ++ [cb]) as -> by (by destruct w).
  rewrite fold_left_app, drain_commutes. simpl.
  rewrite !callback_commutes. by destruct (callback _ _ _).
Qed.

(** ** What a step sends *)

Lemma callback_refresh_posts s ok w :
  refresh_posts (trace (callback s ok w)) = refresh_posts (trace w).
Proof.
  unfold callback. destruct ok; simpl.
  - destruct w; simpl. by rewrite refresh_posts_snoc, app_nil_r.
  - apply settle_requests.
Qed.

Lemma onRefreshed_refresh_posts ok w :
  refresh_posts (trace (onRefreshed ok w)) = refresh_posts (trace w).
Proof.
  unfold onRefreshed.
  assert (refresh_posts (trace (fold_left (fun w' cb => callback cb ok w')
                                  (refreshSubscribers w) w))
          = refresh_posts (trace w)) as Hd.
  2: { rewrite <- Hd. by destruct (fold_left _ _ _). }
  generalize (refreshSubscribers w). intros subs.
  revert w. induction subs as [|s subs IH]; intros w; simpl; [done|].
  by rewrite IH, callback_refresh_posts.
Qed.

Lemma resume_refresh_posts j w :
  refresh_posts (trace (resume j w)) = refresh_posts (trace w).
Proof.
  unfold resume. destruct (job_settlement j) as [v|refreshError].
  - destruct (SquareAxios_sent (job_originalRequest j) (job_returned j)
                (onRefreshed true (set_isRefreshing false w))) as (_&_&_&->).
    rewrite refresh_posts_snoc, app_nil_r, onRefreshed_refresh_posts.
    by destruct w.
  - match goal with |- context [settle ?k ?s ?w0] =>
      destruct (settle_requests k s w0) as (->&_&_) end.
    pose proof (onRefreshed_refresh_posts false (set_isRefreshing false w)) as Hp.
    destruct (onRefreshed false (set_isRefreshing false w))
      as [? ? ? ? ? ? ? win].
    destruct w, win; simpl in *; by rewrite ?refresh_posts_snoc, ?app_nil_r.
Qed.

(** X5: a step sends at most one refresh call, and only a step that turns
    [isRefreshing] from false to true sends one; in particular nothing sends
    a refresh call while one is pending. *)
Theorem refresh_sent_only_when_idle (ev : Event) (w : World) :
  refresh_posts (trace (step ev w)) = refresh_posts (trace w) \/
  (isRefreshing w = false /\
   isRefreshing (step ev w) = true /\
   refresh_posts (trace (step ev w)) = refresh_posts (trace w) ++ [next_ref w]).
Proof.
  destruct ev as [retry|x r|]; simpl.
  - left. by destruct w.
  - destruct (inflight w !! x) as [k|]; [|by left].
    destruct r as [data|error].
    { left. match goal with |- context [settle ?k ?s ?w0] =>
        destruct (settle_requests k s w0) as (->&_&_) end. by destruct w. }
    unfold responseErrorInterceptor.
    destruct (isCancel error).
    { left. match goal with |- context [settle ?k ?s ?w0] =>
        destruct (settle_requests k s w0) as (->&_&_) end. by destruct w. }
    destruct (retryable error _) as [c|].
    2: { left. match goal with |- context [settle ?k ?s ?w0] =>
           destruct (settle_requests k s w0) as (->&_&_) end. by destruct w. }
    destruct w as [flag ? ? ? ? ? ? ?]; simpl. destruct flag; simpl.
    + by left.
    + right. by rewrite refresh_posts_snoc.
  - left. destruct (jobs w) as [|j rest]; [done|].
    rewrite resume_refresh_posts. by destruct w.
Qed.

Lemma replays_of_replays_from_app t x cs :
  replays (t ++ replays_from x cs) = replays t ++ cs.
Proof.
  unfold replays at 1. rewrite omap_app.
  fold (replays t). fold (replays (replays_from x cs)).
  by rewrite replays_replays_from.
Qed.

Lemma onRefreshed_true_trace w :
  trace (onRefreshed true w)
  = trace w ++ replays_from (next_ref w)
                 (sub_originalRequest <$> refreshSubscribers w).
Proof.
  unfold onRefreshed.
  pose proof (drain_replays (refreshSubscribers w) w) as (Ht & _). simpl in Ht.
  by destruct (fold_left _ _ _).
Qed.

Lemma resume_replays j w :
  replays (trace (resume j w))
  = replays (trace w)
    ++ match job_settlement j with
       | Fulfilled _ =>
           (sub_originalRequest <$> refreshSubscribers w) ++ [job_originalRequest j]
       | Rejected _ => []
       end.
Proof.
  unfold resume. destruct (job_settlement j) as [v|refreshError].
  - destruct (SquareAxios_sent (job_originalRequest j) (job_returned j)
                (onRefreshed true (set_isRefreshing false w))) as (_&_&_&->).
    pose proof (onRefreshed_true_trace (set_isRefreshing false w)) as Ht.
    rewrite replays_snoc, Ht, replays_of_replays_from_app, <- app_assoc.
    by destruct w.
  - match goal with |- context [settle ?k ?s ?w0] =>
      destruct (settle_requests k s w0) as (_&->&_) end.
    pose proof (drain_rejections (refreshSubscribers (set_isRefreshing false w))
                  (set_isRefreshing false w)) as (_&_&_&_&_&_&_&Hr&_).
    unfold onRefreshed. destruct (fold_left _ _ _) as [? ? ? ? ? ? ? win].
    destruct w, win; simpl in *; by rewrite ?replays_snoc, ?app_nil_r, Hr.
Qed.

(** X6: a replay is sent by one kind of step only, the resumption of an
    activation whose refresh call was fulfilled; that step replays every
    subscriber, in subscription order, and then the request that started
    the refresh.  No other step, and no resumption after a rejected refresh,
    sends a replay. *)
Theorem replay_sent_only_after_fulfilled_refresh (ev : Event) (w : World) :
  replays (trace (step ev w)) = replays (trace w) \/
  (ev = RunJob /\
   exists j rest v,
     jobs w = j :: rest /\ job_settlement j = Fulfilled v /\
     replays (trace (step ev w))
     = replays (trace w)
       ++ (sub_originalRequest <$> refreshSubscribers w)
       ++ [job_originalRequest j]).
Proof.
  destruct ev as [retry|x r|]; simpl.
  - left. by destruct w.
  - left. destruct (inflight w !! x) as [k|]; [|done].
    destruct r as [data|error].
    { match goal with |- context [settle ?k ?s ?w0] =>
        destruct (settle_requests k s w0) as (_&->&_) end. by destruct w. }
    unfold responseErrorInterceptor.
    destruct (isCancel error).
    { match goal with |- context [settle ?k ?s ?w0] =>
        destruct (settle_requests k s w0) as (_&->&_) end. by destruct w. }
    destruct (retryable error _) as [c|].
    2: { match goal with |- context [settle ?k ?s ?w0] =>
           destruct (settle_requests k s w0) as (_&->&_) end. by destruct w. }
    destruct w as [flag ? ? ? ? ? ? ?]; simpl. destruct flag; simpl; [done|].
    by rewrite replays_snoc, app_nil_r.
  - destruct (jobs w) as [|j rest] eqn:Hj; [by left|].
    rewrite resume_replays.
    destruct (job_settlement j) as [v|refreshError] eqn:Hs.
    + right. split; [done|]. exists j, rest, v. repeat split; try done.
      by destruct w.
    + left. rewrite app_nil_r. by destruct w.
Qed.

(** ** A refresh call that fails *)

Lemma settlements_app t1 t2 :
  settlements (t1 ++ t2) = settlements t1 ++ settlements t2.
Proof. apply omap_app. Qed.

Lemma replays_app t1 t2 : replays (t1 ++ t2) = replays t1 ++ replays t2.
Proof. apply omap_app. Qed.

Lemma refresh_posts_app t1 t2 :
  refresh_posts (t1 ++ t2) = refresh_posts t1 ++ refresh_posts t2.
Proof. apply omap_app. Qed.

Lemma settlements_cons e t :
  settlements (e :: t) = settlements [e] ++ settlements t.
Proof. apply (settlements_app [e]). Qed.

Lemma replays_cons e t : replays (e :: t) = replays [e] ++ replays t.
Proof. apply (replays_app [e]). Qed.

Lemma refresh_posts_cons e t :
  refresh_posts (e :: t) = refresh_posts [e] ++ refresh_posts t.
Proof. apply (refresh_posts_app [e]). Qed.

Lemma replays_rejections rest : replays (rejection <$> rest) = [].
Proof. by induction rest. Qed.

Lemma settlements_rejections rest :
  settlements (rejection <$> rest)
  = (fun f => (failed_request f, Rejected (failed_error f))) <$> rest.
Proof.
  induction rest as [|f rest IH]; [done|].
  rewrite !fmap_cons, <- IH. done.
Qed.

(** X7: when the refresh call of an episode is answered with an error
    whose status is not 401, every request of the episode is rejected and
    none is replayed: the subscribers, in subscription order, each with the
    401 it had failed with, then the request that started the refresh, with
    the error of the refresh call; the module is back in its initial state
    (flag cleared, no subscriber, no resumption) and no exchange was sent
    besides the refresh call. *)
Theorem refresh_failure_fan_out
    (first : Failed) (rest : list Failed) (refreshError : AxiosError) (w : World) :
  isRefreshing w = false ->
  refreshSubscribers w = [] ->
  jobs w = [] ->
  Forall (first_attempt_401 w) (first :: rest) ->
  Forall from_caller (first :: rest) ->
  NoDup (failed_request <$> (first :: rest)) ->
  isCancel refreshError = false ->
  response_status refreshError <> Some 401 ->
  let w' := run ((failure_event <$> (first :: rest))
                 ++ refresh_fails refreshError w) w in
  settlements (trace w')
  = settlements (trace w)
    ++ ((fun f => (failed_request f, Rejected (failed_error f))) <$> rest)
    ++ [(failed_request first, Rejected refreshError)] /\
  replays (trace w') = replays (trace w) /\
  refresh_posts (trace w') = refresh_posts (trace w) ++ [next_ref w] /\
  isRefreshing w' = false /\
  refreshSubscribers w' = [] /\
  jobs w' = [] /\
  next_ref w' = S (next_ref w).
Proof.
  intros Hflag Hsubs Hjobs Hall Hcallers Hnd Hc Hs w'.
  destruct (episode_fails first rest refreshError w
              Hflag Hsubs Hjobs Hall Hcallers Hnd Hc Hs)
    as (Hf & Hsu & Hj & Hn & Ht).
  fold w' in Hf, Hsu, Hj, Hn, Ht.
  assert (refresh_posts (rejection <$> rest) = []) as Hposts.
  { clear. by induction rest. }
  rewrite Ht. clear Ht.
  refine (conj _ (conj _ (conj _ (conj Hf (conj Hsu (conj Hj Hn)))))).
  - rewrite settlements_app, settlements_cons, settlements_app,
      settlements_rejections.
    by destruct (window_defined w).
  - rewrite replays_app, replays_cons, replays_app, replays_rejections.
    destruct (window_defined w); simpl; by rewrite app_nil_r.
  - rewrite refresh_posts_app, refresh_posts_cons, refresh_posts_app, Hposts.
    by destruct (window_defined w).
Qed.

Lemma refresh_failure_fan_out_witness :
  settlements
    (trace (run ((failure_event <$> (failed_401 0 :: abc_failed))
                 ++ refresh_fails (err500 3) abc_world) abc_world))
  = [(1, Rejected (err401 1)); (2, Rejected (err401 2)); (0, Rejected (err500 3))].
Proof.
  apply (refresh_failure_fan_out (failed_401 0) abc_failed (err500 3)
           abc_world eq_refl eq_refl eq_refl abc_first_attempts abc_from_caller
           abc_distinct eq_refl).
  discriminate.
Defined.

(** ** The marker *)

Lemma settle_keeps_mark x k s w : marked x w -> marked x (settle k s w).
Proof.
  unfold marked. by destruct (settle_fields k s w) as (_&_&->&_&->&_).
Qed.

Lemma dispatch_keeps_mark x retry k w :
  marked x w -> marked x (dispatch retry k w).
Proof.
  unfold marked. world w. intros (Hlt & Hm).
  rewrite lookup_partial_alter_ne by lia. split; [lia|done].
Qed.

Lemma SquareAxios_keeps_mark x c k w :
  marked x w -> marked x (SquareAxios c k w).
Proof.
  intros H. unfold SquareAxios. apply dispatch_keeps_mark. by destruct w.
Qed.

Lemma onRefreshed_keeps_mark x ok w :
  marked x w -> marked x (onRefreshed ok w).
Proof.
  intros H. unfold onRefreshed.
  assert (marked x (fold_left (fun w' cb => callback cb ok w')
                      (refreshSubscribers w) w)) as Hd.
  2: { revert Hd. unfold marked. by destruct (fold_left _ _ _). }
  generalize (refreshSubscribers w). intros subs. revert w H.
  induction subs as [|s subs IH]; intros w H; simpl; [done|].
  apply IH. unfold callback. destruct ok; simpl.
  - by apply SquareAxios_keeps_mark.
  - by apply settle_keeps_mark.
Qed.

Lemma resume_keeps_mark x j w : marked x w -> marked x (resume j w).
Proof.
  intros H. unfold resume.
  assert (forall ok, marked x (onRefreshed ok (set_isRefreshing false w))) as Hd.
  { intros ok. apply onRefreshed_keeps_mark. by destruct w. }
  destruct (job_settlement j) as [v|refreshError].
  - by apply SquareAxios_keeps_mark.
  - apply settle_keeps_mark. specialize (Hd false).
    destruct (window_defined _); [|done].
    revert Hd. unfold marked. by destruct (onRefreshed _ _).
Qed.

Lemma interceptor_keeps_mark x error returned w :
  marked x w -> marked x (responseErrorInterceptor error returned w).
Proof.
  intros H. unfold responseErrorInterceptor.
  destruct (isCancel error); [by apply settle_keeps_mark|].
  destruct (retryable error w) as [c|]; [|by apply settle_keeps_mark].
  assert (marked x (set_retry_field (<[c:=true]> (retry_field w)) w)) as H1.
  { revert H. unfold marked. world w. intros (Hlt & Hm). split; [done|].
    destruct (decide (c = x)) as [->|Hne].
    - apply lookup_insert_eq.
    - by rewrite lookup_insert_ne. }
  destruct (isRefreshing _).
  - revert H1. unfold marked, subscribeRefresh. by destruct (set_retry_field _ _).
  - unfold SquareAxios_post_refresh. apply dispatch_keeps_mark.
    revert H1. unfold marked. by destruct (set_retry_field _ _).
Qed.

Lemma step_keeps_mark x ev w : marked x w -> marked x (step ev w).
Proof.
  intros H. destruct ev as [retry|y r|]; simpl.
  - by apply dispatch_keeps_mark.
  - destruct (inflight w !! y) as [k|]; [|done].
    assert (marked x (set_inflight (delete y (inflight w)) w)) as H1
      by (revert H; unfold marked; by destruct w).
    destruct r as [data|error].
    + by apply settle_keeps_mark.
    + by apply interceptor_keeps_mark.
  - destruct (jobs w) as [|j rest]; [done|].
    apply resume_keeps_mark. revert H. unfold marked. by destruct w.
Qed.

(** X8: the marker is never cleared: once the descriptor of an exchange
    that has been sent carries [_retry = true], it carries it after any
    further sequence of requests, answers and resumptions. *)
Theorem marker_never_cleared (x : ConfigRef) (evs : list Event) (w : World) :
  x < next_ref w ->
  retry_field w !! x = Some true ->
  retry_field (run evs w) !! x = Some true.
Proof.
  intros Hlt Hm. assert (marked x (run evs w)) as [_ H]; [|done].
  assert (marked x w) as H by done. clear Hlt Hm.
  revert w H. induction evs as [|ev evs IH]; intros w H; [done|].
  rewrite run_cons. by apply IH, step_keeps_mark.
Qed.

Lemma marker_never_cleared_witness :
  retry_field
    (run [AppRequest None; Respond 2 (Err (err401 2)); Respond 3 (Err (err500 3));
          RunJob; AppRequest (Some false)] replayed_world) !! 0 = Some true.
Proof.
  apply (marker_never_cleared 0); [vm_compute; lia | reflexivity].
Defined.

(** ** A refresh call answered with 401, in general *)

Lemma answered_subset fs m x k :
  answered fs m !! x = Some k -> m !! x = Some k.
Proof.
  revert m. induction fs as [|f fs IH]; intros m; [done|].
  unfold answered in *. simpl. intros H%IH.
  by apply lookup_delete_Some in H as [_ H].
Qed.

(** X9: when the refresh call of an episode is itself answered with a 401
    naming its own descriptor, that answer is subscribed behind the
    subscribers of the episode, for the activation that awaits it; the flag
    stays set, nothing is settled, sent or scheduled, and running the job
    queue changes nothing.  If the other exchanges in flight belong to
    callers, the world is then deadlocked. *)
Theorem refresh_answered_401_subscribes_itself
    (first : Failed) (rest : list Failed) (refreshError : AxiosError) (w : World) :
  isRefreshing w = false ->
  jobs w = [] ->
  Forall (first_attempt_401 w) (first :: rest) ->
  NoDup (failed_request <$> (first :: rest)) ->
  isCancel refreshError = false ->
  response_status refreshError = Some 401 ->
  config refreshError = Some (next_ref w) ->
  let w' := run ((failure_event <$> (first :: rest))
                 ++ refresh_fails refreshError w) w in
  isRefreshing w' = true /\
  jobs w' = [] /\
  trace w' = trace w ++ [RefreshPost (next_ref w)] /\
  refreshSubscribers w'
  = refreshSubscribers w ++ (subscriber_of <$> rest)
    ++ [mkSubscriber refreshError (next_ref w)
          (RefreshAwait (failed_request first) (failed_promise first))] /\
  inflight w' !! next_ref w = None /\
  ((forall x k, inflight w !! x = Some k -> exists p, k = CallerPromise p) ->
   deadlocked w').
Proof.
  intros Hflag Hjobs Hall Hnd Hc Hs Hcfg w'. subst w'.
  rewrite run_app, run_opens_episode by done.
  apply Forall_cons in Hall as [_ Hrest].
  assert (next_ref w ∉ failed_request <$> rest) as Hfresh.
  { intros (f & Heq & Hf)%list_elem_of_fmap_1.
    rewrite Forall_forall in Hrest. destruct (Hrest f Hf) as (_&?&_). lia. }
  unfold refresh_fails. rewrite !run_cons. change (run [] ?w0) with w0.
  assert (step (Respond (next_ref w) (Err refreshError)) (episode_opened first rest w)
          = subscribeRefresh
              (mkSubscriber refreshError (next_ref w)
                 (RefreshAwait (failed_request first) (failed_promise first)))
              (set_retry_field
                 (<[next_ref w := true]> (retry_field (episode_opened first rest w)))
                 (set_inflight (delete (next_ref w)
                                  (inflight (episode_opened first rest w)))
                    (episode_opened first rest w)))) as ->.
  { unfold step, episode_opened. cbn [inflight].
    rewrite answered_lookup, lookup_insert_eq by done.
    unfold responseErrorInterceptor. rewrite Hc.
    rewrite (retryable_first_attempt _ _ (next_ref w)); [done|done|done|].
    simpl. rewrite mark_all_lookup_notin by done.
    by rewrite lookup_partial_alter_eq. }
  unfold episode_opened. rewrite Hjobs. simpl.
  refine (conj eq_refl (conj eq_refl (conj eq_refl (conj _ (conj _ _))))).
  - by rewrite <- app_assoc.
  - apply lookup_delete_eq.
  - intros Hcallers. repeat split. simpl. intros x k Hx.
    apply lookup_delete_Some in Hx as [Hne Hx].
    apply answered_subset in Hx. rewrite lookup_insert_ne in Hx by done.
    apply lookup_delete_Some in Hx as [_ Hx]. by eapply Hcallers.
Qed.

Lemma refresh_answered_401_subscribes_itself_witness :
  sub_promise <$>
    refreshSubscribers
      (run ((failure_event <$> (failed_401 0 :: abc_failed))
            ++ refresh_fails (err401 3) abc_world) abc_world)
  = [CallerPromise 1; CallerPromise 2; RefreshAwait 0 (CallerPromise 0)].
Proof.
  destruct (refresh_answered_401_subscribes_itself (failed_401 0) abc_failed
              (err401 3) abc_world eq_refl eq_refl abc_first_attempts
              abc_distinct eq_refl eq_refl eq_refl) as (_ & _ & _ & Hsubs & _).
  rewrite Hsubs. reflexivity.
Defined.

Lemma settle_caller_deadlocked p s w :
  deadlocked w -> deadlocked (settle (CallerPromise p) s w).
Proof. unfold deadlocked. by destruct w. Qed.

Lemma step_deadlocked ev w :
  deadlocked w ->
  deadlocked (step ev w) /\
  refresh_posts (trace (step ev w)) = refresh_posts (trace w) /\
  replays (trace (step ev w)) = replays (trace w) /\
  navigations (trace (step ev w)) = navigations (trace w) /\
  exists l, refreshSubscribers (step ev w) = refreshSubscribers w ++ l.
Proof.
  intros Hd. destruct ev as [retry|x r|]; simpl.
  - revert Hd. unfold deadlocked. destruct w as [? ? ? ? ? ? nr ?]; simpl.
    intros (Hflag & Hjobs & Hin).
    refine (conj (conj Hflag (conj Hjobs _))
              (conj eq_refl (conj eq_refl (conj eq_refl _)))).
    + intros x k. destruct (decide (nr = x)) as [<-|Hne].
      * rewrite lookup_insert_eq. intros [= <-]. by exists nr.
      * rewrite lookup_insert_ne by done. apply Hin.
    + exists []. by rewrite app_nil_r.
  - destruct (inflight w !! x) as [k|] eqn:Hx.
    2: { refine (conj Hd (conj eq_refl (conj eq_refl (conj eq_refl _)))).
         exists []. by rewrite app_nil_r. }
    pose proof Hd as (Hflag & Hjobs & Hin).
    destruct (Hin x k Hx) as (p & ->).
    assert (deadlocked (set_inflight (delete x (inflight w)) w)) as Hd1.
    { clear Hflag Hjobs Hin Hx. revert Hd. unfold deadlocked. world w.
      intros (Hflag & Hjobs & Hin). repeat split; try done.
      intros y k Hy. apply lookup_delete_Some in Hy as [_ Hy]. by eapply Hin. }
    assert (forall s,
      let w1 := settle (CallerPromise p) s (set_inflight (delete x (inflight w)) w) in
      deadlocked w1 /\
      refresh_posts (trace w1) = refresh_posts (trace w) /\
      replays (trace w1) = replays (trace w) /\
      navigations (trace w1) = navigations (trace w) /\
      exists l, refreshSubscribers w1 = refreshSubscribers w ++ l) as Hsettle.
    { intros s w1. split; [by apply settle_caller_deadlocked|].
      subst w1. destruct w; simpl.
      rewrite refresh_posts_snoc, replays_snoc, navigations_snoc, !app_nil_r.
      refine (conj eq_refl (conj eq_refl (conj eq_refl _))).
      exists []. by rewrite app_nil_r. }
    destruct r as [data|error]; [apply Hsettle|].
    unfold responseErrorInterceptor.
    destruct (isCancel error); [apply Hsettle|].
    destruct (retryable error _) as [c|]; [|apply Hsettle].
    clear Hsettle. revert Hd1. unfold deadlocked.
    destruct w as [flag ? ? ? ? ? ? ?]; simpl in *. subst flag. simpl.
    intros (_ & _ & Hin1).
    refine (conj (conj eq_refl (conj Hjobs Hin1))
              (conj eq_refl (conj eq_refl (conj eq_refl _)))).
    by eexists.
  - pose proof Hd as (Hflag & Hjobs & Hin). rewrite Hjobs.
    refine (conj Hd (conj eq_refl (conj eq_refl (conj eq_refl _)))).
    exists []. by rewrite app_nil_r.
Qed.

(** X10: a deadlocked world stays deadlocked whatever happens next:
    [isRefreshing] stays set, no refresh call, no replay and no navigation
    is ever performed again, and the subscribers already queued stay queued
    (the list only grows). *)
Theorem deadlock_is_permanent (evs : list Event) (w : World) :
  deadlocked w ->
  let w' := run evs w in
  deadlocked w' /\
  refresh_posts (trace w') = refresh_posts (trace w) /\
  replays (trace w') = replays (trace w) /\
  navigations (trace w') = navigations (trace w) /\
  exists l, refreshSubscribers w' = refreshSubscribers w ++ l.
Proof.
  revert w. induction evs as [|ev evs IH]; intros w Hd w'; subst w'.
  { refine (conj Hd (conj eq_refl (conj eq_refl (conj eq_refl _)))).
    exists []. by rewrite app_nil_r. }
  rewrite run_cons.
  destruct (step_deadlocked ev w Hd) as (Hd1 & Hp & Hr & Hn & l1 & Hl1).
  destruct (IH (step ev w) Hd1) as (Hd2 & -> & -> & -> & l2 & ->).
  refine (conj Hd2 (conj Hp (conj Hr (conj Hn _)))).
  exists (l1 ++ l2). by rewrite Hl1, app_assoc.
Qed.

Lemma abc_refresh_401_deadlocked : deadlocked (run abc_refresh_401 (initial true)).
Proof.
  repeat split.
  assert (inflight (run abc_refresh_401 (initial true)) = ∅) as ->
    by (vm_compute; reflexivity).
  intros x k Hx. by apply lookup_empty_Some in Hx.
Qed.

(** After the deadlock a new request fails with 401: it is queued, and no
    second refresh call is sent. *)
Lemma deadlock_is_permanent_witness :
  refresh_posts
    (trace (run [AppRequest None; Respond 4 (Err (err401 4)); RunJob]
                (run abc_refresh_401 (initial true))))
  = [3].
Proof.
  apply (deadlock_is_permanent
           [AppRequest None; Respond 4 (Err (err401 4)); RunJob]
           (run abc_refresh_401 (initial true)) abc_refresh_401_deadlocked).
Defined.

(** ** One episode after the other *)

(** X11: a finished episode leaves the module ready for the next one: after
    a successful refresh, the next first-attempt 401 sets the flag again and
    sends a second refresh call. *)
Theorem next_expiry_starts_new_refresh
    (first : Failed) (rest : list Failed) (data : nat) (next : Failed) (w : World) :
  isRefreshing w = false ->
  refreshSubscribers w = [] ->
  jobs w = [] ->
  Forall (first_attempt_401 w) (first :: rest) ->
  NoDup (failed_request <$> (first :: rest)) ->
  let w' := run ((failure_event <$> (first :: rest)) ++ refresh_succeeds data w) w in
  first_attempt_401 w' next ->
  let w2 := step (failure_event next) w' in
  isRefreshing w2 = true /\
  refreshSubscribers w2 = [] /\
  refresh_posts (trace w2)
  = refresh_posts (trace w) ++ [next_ref w; S (S (next_ref w)) + length rest].
Proof.
  intros Hflag Hsubs Hjobs Hall Hnd w' Hnext w2.
  destruct (episode_succeeds first rest data w Hflag Hsubs Hjobs Hall Hnd)
    as (Hf & Hs & _ & Ht & Hn & _).
  fold w' in Hf, Hs, Ht, Hn. subst w2.
  rewrite (step_opens next w' Hf Hnext). simpl.
  rewrite Hs, Hn, Ht. repeat split.
  rewrite refresh_posts_snoc, refresh_posts_app, refresh_posts_cons. simpl.
  assert (forall x cs, refresh_posts (replays_from x cs) = []) as ->.
  { clear. intros x cs. revert x.
    induction cs as [|c cs IH]; intros x; [done|]. apply IH. }
  simpl. by rewrite <- app_assoc.
Qed.

Lemma abcd_first_attempts :
  Forall (first_attempt_401 abcd_world) [failed_401 0; failed_401 1; failed_401 2].
Proof. repeat constructor; simpl; lia. Qed.

(** Requests 0, 1 and 2 go through a successful episode while request 3 is
    in flight; then request 3 fails with 401. *)
Lemma next_expiry_starts_new_refresh_witness :
  refresh_posts
    (trace (step (failure_event (failed_401 3))
              (run ((failure_event <$> (failed_401 0 :: abc_failed))
                    ++ refresh_succeeds 7 abcd_world) abcd_world)))
  = [4; 8].
Proof.
  apply (next_expiry_starts_new_refresh (failed_401 0) abc_failed 7 (failed_401 3)
           abcd_world eq_refl eq_refl eq_refl abcd_first_attempts abc_distinct).
  repeat split; vm_compute; lia.
Defined.

(** ** The phases of the module *)

Lemma callers_only_insert x p m :
  callers_only m -> callers_only (<[x := CallerPromise p]> m).
Proof.
  intros H y k. destruct (decide (x = y)) as [->|Hne].
  - rewrite lookup_insert_eq. by intros [= <-].
  - rewrite lookup_insert_ne by done. apply H.
Qed.

Lemma callers_only_delete x m : callers_only m -> callers_only (delete x m).
Proof. intros H y k [_ Hy]%lookup_delete_Some. by eapply H. Qed.

Lemma is_caller_inv k : is_caller k = true -> exists p, k = CallerPromise p.
Proof. destruct k; [by eexists|done]. Qed.

Lemma is_await_inv k :
  is_await k = true -> exists c p, k = RefreshAwait c (CallerPromise p).
Proof. destruct k as [|c [p|]]; try done. by exists c, p. Qed.

Lemma rejected_awaits_callers subs :
  caller_subscribers subs -> rejected_awaits subs = [].
Proof.
  induction 1 as [|s subs Hs _ IH]; [done|].
  unfold rejected_awaits in *. simpl. by destruct (sub_promise s).
Qed.

(** Replaying subscribers that are all callers. *)
Lemma drain_true_callers subs w :
  caller_subscribers subs -> sent_before w -> callers_only (inflight w) ->
  let w' := fold_left (fun w' cb => callback cb true w') subs w in
  sent_before w' /\ callers_only (inflight w') /\ jobs w' = jobs w.
Proof.
  intros Hsubs. revert w. induction Hsubs as [|s subs Hs _ IH]; intros w Hb Hc.
  { done. }
  simpl. apply is_caller_inv in Hs as [p Hp].
  destruct (IH (callback s true w)) as (Hb' & Hc' & ->).
  - unfold callback. simpl. revert Hb. unfold sent_before.
    destruct w as [? ? ? ? ? ? nr ?]; simpl. intros Hb x k.
    destruct (decide (nr = x)) as [<-|Hne].
    + intros _. lia.
    + rewrite lookup_insert_ne by done. intros Hx%Hb. lia.
  - unfold callback. simpl. rewrite Hp. revert Hc. destruct w; simpl.
    apply callers_only_insert.
  - repeat split; try done. unfold callback. simpl. by destruct w.
Qed.

Lemma dispatch_sent_before retry k w :
  sent_before w -> sent_before (dispatch retry k w).
Proof.
  unfold sent_before. destruct w as [? ? ? ? ? ? nr ?]; simpl. intros Hb x k'.
  destruct (decide (nr = x)) as [<-|Hne].
  - intros _. lia.
  - rewrite lookup_insert_ne by done. intros Hx%Hb. lia.
Qed.

Lemma settle_sent_before k s w : sent_before w -> sent_before (settle k s w).
Proof.
  unfold sent_before. by destruct (settle_fields k s w) as (_&_&_&->&->&_).
Qed.

Lemma answer_sent_before x w :
  sent_before w -> sent_before (set_inflight (delete x (inflight w)) w).
Proof.
  unfold sent_before. destruct w; simpl. intros Hb y k [_ Hy]%lookup_delete_Some.
  by eapply Hb.
Qed.

(** The answer to exchange [x] is handed to its promise. *)
Lemma deliver_phase ph x k s w :
  in_phase ph w -> inflight w !! x = Some k ->
  let w' := settle k s (set_inflight (delete x (inflight w)) w) in
  exists ph', in_phase ph' w' /\ pending ph' w' = pending ph w.
Proof.
  destruct ph as [|x0| |]; simpl.
  - intros (Hf & Hs & Hj & Hc) Hx. exists Idle. simpl.
    destruct (is_caller_inv k (Hc x k Hx)) as [p ->].
    destruct w; simpl in *. repeat split; try done. by apply callers_only_delete.
  - intros (Hf & Hj & Hs & (k0 & Hx0 & Hk0) & Hc) Hx.
    destruct (decide (x = x0)) as [->|Hne].
    + assert (k = k0) as -> by congruence.
      destruct (is_await_inv k0 Hk0) as (c & p & ->).
      exists ResumptionPending. destruct w; simpl in *. subst.
      split; [|by rewrite Hx0].
      refine (conj eq_refl (conj _ (conj Hs Hc))). by eexists.
    + assert (is_caller k = true) as [p ->]%is_caller_inv.
      { apply (Hc x). by rewrite lookup_delete_ne. }
      exists (RefreshInFlight x0). destruct w; simpl in *.
      split; [|by rewrite lookup_delete_ne by done].
      refine (conj Hf (conj Hj (conj Hs (conj _ _)))).
      * exists k0. by rewrite lookup_delete_ne by done.
      * rewrite delete_delete. by apply callers_only_delete.
  - intros (Hf & Hj & Hs & Hc) Hx. exists ResumptionPending.
    destruct (is_caller_inv k (Hc x k Hx)) as [p ->].
    destruct w; simpl in *. repeat split; try done. by apply callers_only_delete.
  - intros (Hf & Hj & Hc) Hx. exists SelfQueued.
    destruct (is_caller_inv k (Hc x k Hx)) as [p ->].
    destruct w; simpl in *. repeat split; try done. by apply callers_only_delete.
Qed.

Lemma interceptor_phase ph x k error w :
  sent_before w -> in_phase ph w -> inflight w !! x = Some k ->
  let w1 := set_inflight (delete x (inflight w)) w in
  let w' := responseErrorInterceptor error k w1 in
  exists ph',
    in_phase ph' w' /\
    (pending ph' w' = pending ph w \/
     pending ph' w' = [] \/
     exists c, isCancel error = false /\ retryable error w1 = Some c /\
               pending ph' w' ≡ₚ c :: pending ph w).
Proof.
  intros Hb Hph Hx w1 w'. subst w1 w'. unfold responseErrorInterceptor.
  assert (forall s,
    exists ph',
      in_phase ph' (settle k s (set_inflight (delete x (inflight w)) w)) /\
      (pending ph' (settle k s (set_inflight (delete x (inflight w)) w))
       = pending ph w \/
       pending ph' (settle k s (set_inflight (delete x (inflight w)) w)) = [] \/
       exists c, isCancel error = false /\
                 retryable error (set_inflight (delete x (inflight w)) w) = Some c /\
                 pending ph' (settle k s (set_inflight (delete x (inflight w)) w))
                 ≡ₚ c :: pending ph w)) as Hdeliver.
  { intros s. destruct (deliver_phase ph x k s w Hph Hx) as (ph' & Hph' & Hp).
    exists ph'. split; [done|]. by left. }
  destruct (isCancel error) eqn:Hcancel; [apply Hdeliver|].
  destruct (retryable error _) as [c|] eqn:Hr; [|apply Hdeliver].
  clear Hdeliver.
  destruct ph as [|x0| |]; simpl in Hph.
  - destruct Hph as (Hf & Hs & Hj & Hc).
    destruct (is_caller_inv k (Hc x k Hx)) as [p ->].
    specialize (Hb x _ Hx).
    destruct w as [? ? ? ? ? ? nr ?]; simpl in *. subst. simpl.
    exists (RefreshInFlight nr). simpl. split.
    + refine (conj eq_refl (conj eq_refl (conj _ (conj _ _)))).
      * constructor.
      * eexists. by rewrite lookup_insert_eq.
      * rewrite delete_insert_eq. by do 2 apply callers_only_delete.
    + right. right. exists c. do 2 (split; [done|]). by rewrite lookup_insert_eq.
  - destruct Hph as (Hf & Hj & Hs & (k0 & Hx0 & Hk0) & Hc).
    destruct (decide (x = x0)) as [->|Hne].
    + exists SelfQueued. destruct w; simpl in *. subst. simpl.
      split; [by repeat split|]. by right; left.
    + assert (is_caller k = true) as Hk.
      { apply (Hc x). by rewrite lookup_delete_ne. }
      exists (RefreshInFlight x0). destruct w; simpl in *. subst. simpl. split.
      * refine (conj eq_refl (conj eq_refl (conj _ (conj _ _)))).
        -- apply Forall_app. split; [done|]. by repeat constructor.
        -- exists k0. by rewrite lookup_delete_ne by done.
        -- rewrite delete_delete. by apply callers_only_delete.
      * right. right. exists c. do 2 (split; [done|]).
        rewrite lookup_delete_ne by done. rewrite fmap_app, <- app_assoc. simpl.
        by rewrite Permutation_middle.
  - destruct Hph as (Hf & Hj & Hs & Hc). exists ResumptionPending.
    pose proof (Hc x k Hx) as Hk.
    destruct w; simpl in *. subst. simpl. split.
    + repeat split; try done.
      * apply Forall_app. split; [done|]. by repeat constructor.
      * by apply callers_only_delete.
    + right. right. exists c. do 2 (split; [done|]).
      rewrite fmap_app, <- app_assoc. simpl. by rewrite Permutation_middle.
  - destruct Hph as (Hf & Hj & Hc). exists SelfQueued.
    destruct w; simpl in *. subst. simpl. split; [|by left].
    repeat split; try done. by apply callers_only_delete.
Qed.

Lemma interceptor_sent_before error k w :
  sent_before w -> sent_before (responseErrorInterceptor error k w).
Proof.
  intros Hb. unfold responseErrorInterceptor.
  destruct (isCancel error); [by apply settle_sent_before|].
  destruct (retryable error w) as [c|]; [|by apply settle_sent_before].
  assert (sent_before (set_retry_field (<[c:=true]> (retry_field w)) w)) as Hb1
    by (revert Hb; unfold sent_before; by destruct w).
  destruct (isRefreshing _).
  - revert Hb1. unfold sent_before, subscribeRefresh.
    by destruct (set_retry_field _ _).
  - unfold SquareAxios_post_refresh. apply dispatch_sent_before.
    revert Hb1. unfold sent_before. by destruct (set_retry_field _ _).
Qed.

Lemma resume_phase j w :
  sent_before w -> in_phase ResumptionPending w -> jobs w = [j] ->
  sent_before (resume j (set_jobs [] w)) /\
  in_phase Idle (resume j (set_jobs [] w)).
Proof.
  intros Hb (Hf & (j' & Hj' & Hret) & Hs & Hc) Hj.
  assert (j' = j) as -> by congruence. clear Hj'.
  apply is_caller_inv in Hret as [p Hret].
  unfold resume. destruct (job_settlement j) as [v|refreshError].
  - unfold onRefreshed.
    pose proof (drain_true_callers
                  (refreshSubscribers (set_isRefreshing false (set_jobs [] w)))
                  (set_isRefreshing false (set_jobs [] w))) as Hd.
    pose proof (drain_fields
                  (refreshSubscribers (set_isRefreshing false (set_jobs [] w)))
                  true (set_isRefreshing false (set_jobs [] w))) as Hfl.
    simpl in Hd, Hfl. destruct Hfl as (Hfl & _).
    destruct Hd as (Hb' & Hc' & Hj').
    { by destruct w. } { revert Hb. unfold sent_before. by destruct w. }
    { by destruct w. }
    rewrite Hret.
    destruct (fold_left _ _ _) as [? ? ? ? ? ? nr ?]. simpl in *.
    split.
    + intros x k. unfold sent_before in Hb'. simpl in *.
      destruct (decide (nr = x)) as [<-|Hne].
      * intros _. lia.
      * rewrite lookup_insert_ne by done. intros Hx%Hb'. lia.
    + destruct w; simpl in *. subst. repeat split; try done.
      by apply callers_only_insert.
  - pose proof (drain_rejections
                  (refreshSubscribers (set_isRefreshing false (set_jobs [] w)))
                  (set_isRefreshing false (set_jobs [] w)))
      as (Hfl & _ & Hin & Hn & Hjs & _).
    simpl in *. rewrite rejected_awaits_callers in Hjs by (by destruct w).
    rewrite Hret. unfold onRefreshed.
    destruct (fold_left _ _ _) as [? ? ? ? ? ? nr win]. simpl in *.
    destruct w; simpl in *. subst.
    destruct win; simpl; by repeat split.
Qed.

Lemma step_well_phased ev w : well_phased w -> well_phased (step ev w).
Proof.
  intros [Hb [ph Hph]]. destruct ev as [retry|x r|]; simpl.
  - split; [by apply dispatch_sent_before|].
    destruct ph as [|x0| |]; simpl in Hph.
    + exists Idle. destruct Hph as (?&?&?&?). destruct w; simpl in *.
      repeat split; try done. by apply callers_only_insert.
    + exists (RefreshInFlight x0).
      destruct Hph as (Hf & Hj & Hs & (k0 & Hx0 & Hk0) & Hc).
      specialize (Hb x0 _ Hx0).
      destruct w as [? ? ? ? ? ? nr ?]; simpl in *.
      refine (conj Hf (conj Hj (conj Hs (conj _ _)))).
      * exists k0. rewrite lookup_insert_ne by lia. done.
      * rewrite delete_insert_ne by lia. by apply callers_only_insert.
    + exists ResumptionPending. destruct Hph as (?&?&?&?). destruct w; simpl in *.
      repeat split; try done. by apply callers_only_insert.
    + exists SelfQueued. destruct Hph as (?&?&?). destruct w; simpl in *.
      repeat split; try done. by apply callers_only_insert.
  - destruct (inflight w !! x) as [k|] eqn:Hx; [|by split; [|exists ph]].
    destruct r as [data|error].
    + split; [by apply settle_sent_before, answer_sent_before|].
      destruct (deliver_phase ph x k (Fulfilled (Response data)) w Hph Hx)
        as (ph' & Hph' & _).
      by exists ph'.
    + split; [by apply interceptor_sent_before, answer_sent_before|].
      destruct (interceptor_phase ph x k error w Hb Hph Hx) as (ph' & Hph' & _).
      by exists ph'.
  - destruct (jobs w) as [|j rest] eqn:Hj; [by split; [|exists ph]|].
    assert (ph = ResumptionPending /\ rest = []) as [-> ->].
    { destruct ph as [|x0| |]; simpl in Hph.
      - destruct Hph as (_&_&?&_). congruence.
      - destruct Hph as (_&?&_). congruence.
      - destruct Hph as (_&(j'&?&_)&_). split; [done|]. congruence.
      - destruct Hph as (_&?&_). congruence. }
    destruct (resume_phase j w Hb Hph Hj) as [Hb' Hidle].
    split; [done|]. by exists Idle.
Qed.

Lemma reachable_well_phased window evs : well_phased (run evs (initial window)).
Proof.
  assert (well_phased (initial window)) as H.
  { assert (callers_only (∅ : gmap nat Promise)) as Hempty
      by (by intros x k Hx%lookup_empty_Some).
    split.
    - intros x k Hx. simpl in Hx. by apply lookup_empty_Some in Hx.
    - exists Idle. by repeat split. }
  revert H. generalize (initial window). intros w.
  revert w. induction evs as [|ev evs IH]; intros w H; [done|].
  rewrite run_cons. by apply IH, step_well_phased.
Qed.

(** X12: in every world the event loop can reach, whatever the order of
    requests, answers and resumptions, at most one refresh is outstanding:
    at most one exchange in flight belongs to an awaiting activation, the
    job queue holds at most one resumption and none while the refresh
    exchange is in flight, both only while [isRefreshing] is set; and every
    exchange in flight was sent before the next fresh descriptor. *)
Theorem one_refresh_outstanding (window : bool) (evs : list Event) :
  let w := run evs (initial window) in
  (forall x y k k',
     inflight w !! x = Some k -> inflight w !! y = Some k' ->
     is_caller k = false -> is_caller k' = false -> x = y) /\
  length (jobs w) <= 1 /\
  (forall x k, inflight w !! x = Some k -> is_caller k = false ->
     isRefreshing w = true /\ jobs w = []) /\
  (jobs w <> [] -> isRefreshing w = true /\ callers_only (inflight w)) /\
  (isRefreshing w = false -> jobs w = [] /\ callers_only (inflight w)) /\
  sent_before w.
Proof.
  intros w. destruct (reachable_well_phased window evs) as [Hb [ph Hph]].
  fold w in Hb, Hph.
  assert (forall x k, callers_only (inflight w) ->
            inflight w !! x = Some k -> is_caller k = false -> False) as Hno.
  { intros x k Hc Hx Hk. specialize (Hc x k Hx). congruence. }
  destruct ph as [|x0| |]; simpl in Hph.
  - destruct Hph as (Hf & Hs & Hj & Hc). rewrite Hj.
    refine (conj _ (conj _ (conj _ (conj _ (conj _ Hb))))).
    + intros x y k k' Hx _ Hk _. by destruct (Hno x k).
    + simpl. lia.
    + intros x k Hx Hk. by destruct (Hno x k).
    + done.
    + done.
  - destruct Hph as (Hf & Hj & Hs & (k0 & Hx0 & Hk0) & Hc). rewrite Hj.
    assert (forall x k, inflight w !! x = Some k -> is_caller k = false -> x = x0)
      as Honly.
    { intros x k Hx Hk. destruct (decide (x = x0)) as [|Hne]; [done|].
      assert (is_caller k = true); [|congruence].
      apply (Hc x). by rewrite lookup_delete_ne. }
    refine (conj _ (conj _ (conj _ (conj _ (conj _ Hb))))).
    + intros x y k k' Hx Hy Hk Hk'.
      rewrite (Honly x k Hx Hk). by rewrite (Honly y k' Hy Hk').
    + simpl. lia.
    + done.
    + done.
    + intros H. congruence.
  - destruct Hph as (Hf & (j & Hj & Hret) & Hs & Hc). rewrite Hj.
    refine (conj _ (conj _ (conj _ (conj _ (conj _ Hb))))).
    + intros x y k k' Hx _ Hk _. by destruct (Hno x k).
    + simpl. lia.
    + intros x k Hx Hk. by destruct (Hno x k).
    + done.
    + intros H. congruence.
  - destruct Hph as (Hf & Hj & Hc). rewrite Hj.
    refine (conj _ (conj _ (conj _ (conj _ (conj _ Hb))))).
    + intros x y k k' Hx _ Hk _. by destruct (Hno x k).
    + simpl. lia.
    + intros x k Hx Hk. by destruct (Hno x k).
    + done.
    + intros H. congruence.
Qed.

(** ** One retry per request, over whole runs *)

Lemma replay_exchanges_snoc t e :
  replay_exchanges (t ++ [e])
  = replay_exchanges t ++ match e with Replay _ x => [x] | _ => [] end.
Proof. unfold replay_exchanges. rewrite omap_app. by destruct e. Qed.

Lemma replay_exchanges_app t1 t2 :
  replay_exchanges (t1 ++ t2) = replay_exchanges t1 ++ replay_exchanges t2.
Proof. apply omap_app. Qed.

Lemma replay_exchanges_replays_from x cs :
  replay_exchanges (replays_from x cs) = seq x (length cs).
Proof.
  revert x. induction cs as [|c cs IH]; intros x; [done|].
  simpl. unfold replay_exchanges in *. simpl. by rewrite IH.
Qed.

Lemma settle_replay_exchanges k s w :
  replay_exchanges (trace (settle k s w)) = replay_exchanges (trace w).
Proof.
  destruct k, w; simpl; [|done]. by rewrite replay_exchanges_snoc, app_nil_r.
Qed.

(** An answer sends no replay. *)
Lemma respond_replays x r w :
  replays (trace (step (Respond x r) w)) = replays (trace w) /\
  replay_exchanges (trace (step (Respond x r) w)) = replay_exchanges (trace w).
Proof.
  simpl. destruct (inflight w !! x) as [k|]; [|done].
  assert (forall s,
    replays (trace (settle k s (set_inflight (delete x (inflight w)) w)))
    = replays (trace w) /\
    replay_exchanges (trace (settle k s (set_inflight (delete x (inflight w)) w)))
    = replay_exchanges (trace w)) as Hsettle.
  { intros s. rewrite settle_replay_exchanges.
    destruct (settle_requests k s (set_inflight (delete x (inflight w)) w))
      as (_ & -> & _).
    by destruct w. }
  destruct r as [data|error]; [apply Hsettle|].
  unfold responseErrorInterceptor.
  destruct (isCancel error); [apply Hsettle|].
  destruct (retryable error _) as [c|]; [|apply Hsettle].
  destruct w as [flag ? ? ? ? ? ? ?]; simpl. destruct flag; simpl; [done|].
  by rewrite replays_snoc, replay_exchanges_snoc, !app_nil_r.
Qed.

Lemma resume_rejected_replay_exchanges j refreshError w :
  job_settlement j = Rejected refreshError ->
  replay_exchanges (trace (resume j w)) = replay_exchanges (trace w).
Proof.
  intros Hs. unfold resume. rewrite Hs. rewrite settle_replay_exchanges.
  assert (replay_exchanges (trace (onRefreshed false (set_isRefreshing false w)))
          = replay_exchanges (trace w)) as Hd.
  { unfold onRefreshed.
    assert (forall subs w0,
      replay_exchanges
        (trace (fold_left (fun w' cb => callback cb false w') subs w0))
      = replay_exchanges (trace w0)) as Hfold.
    { induction subs as [|s subs IH]; intros w0; simpl; [done|].
      rewrite IH. unfold callback. simpl. apply settle_replay_exchanges. }
    specialize (Hfold (refreshSubscribers (set_isRefreshing false w))
                      (set_isRefreshing false w)).
    destruct (fold_left _ _ _). simpl in *. rewrite Hfold. by destruct w. }
  destruct (onRefreshed false (set_isRefreshing false w)) as [? ? ? ? ? ? ? win].
  simpl in *. destruct win; simpl; [|done].
  by rewrite replay_exchanges_snoc, app_nil_r.
Qed.

(** The resumption after a fulfilled refresh: what it sends, and that every
    replay is sent with the marker of the descriptor it replays. *)
Lemma resume_fulfilled j v w :
  job_settlement j = Fulfilled v ->
  let cs := (sub_originalRequest <$> refreshSubscribers w) ++ [job_originalRequest j] in
  trace (resume j w) = trace w ++ replays_from (next_ref w) cs /\
  ((forall c, c ∈ cs -> marked c w) ->
   forall i, i < length cs -> marked (next_ref w + i) (resume j w)).
Proof.
  intros Hs cs. subst cs. unfold resume. rewrite Hs.
  set (w0 := set_isRefreshing false w).
  assert (refreshSubscribers w0 = refreshSubscribers w /\
          next_ref w0 = next_ref w /\ trace w0 = trace w /\
          retry_field w0 = retry_field w) as (Hsu & Hn0 & Ht0 & Hr0)
    by (by destruct w).
  pose proof (onRefreshed_true_trace w0) as Ht.
  assert (next_ref (onRefreshed true w0) = next_ref w + length (refreshSubscribers w)
          /\ (forall x, x < next_ref w ->
                retry_field (onRefreshed true w0) !! x = retry_field w !! x)
          /\ (forall i s, refreshSubscribers w !! i = Some s ->
                sub_originalRequest s < next_ref w ->
                retry_field (onRefreshed true w0) !! (next_ref w + i)
                = retry_field w !! sub_originalRequest s))
    as (Hn & Hframe & Hsent).
  { unfold onRefreshed.
    pose proof (drain_replays (refreshSubscribers w0) w0) as Hd. simpl in Hd.
    destruct (fold_left _ _ _). simpl in *.
    destruct Hd as (_ & Hn & _ & Hframe & Hsent).
    rewrite Hsu, Hn0, Hr0 in *. repeat split; try done.
    - intros x Hx. by destruct (Hframe x Hx).
    - intros i s Hi Hlt. destruct (Hsent i s Hi) as [_ H]. by apply H. }
  destruct (SquareAxios_sent (job_originalRequest j) (job_returned j)
              (onRefreshed true w0)) as (_ & Hrf & Hnn & Htt).
  split.
  - rewrite Htt, Ht, Hn, Ht0, Hsu, Hn0, replays_from_app, length_fmap.
    by rewrite <- app_assoc.
  - intros Hmarked i Hi. rewrite length_app, length_fmap in Hi. simpl in Hi.
    split; [rewrite Hnn, Hn; lia|].
    destruct (decide (i = length (refreshSubscribers w))) as [->|Hne].
    + rewrite <- Hn, Hrf.
      destruct (Hmarked (job_originalRequest j)) as [Hlt Hm].
      { apply elem_of_app. right. by apply list_elem_of_singleton. }
      by rewrite Hframe.
    + destruct (SquareAxios_frame (job_originalRequest j) (job_returned j)
                  (onRefreshed true w0) (next_ref w + i)) as [_ ->].
      { rewrite Hn. lia. }
      destruct (lookup_lt_is_Some_2 (refreshSubscribers w) i) as [s Hsi]; [lia|].
      destruct (Hmarked (sub_originalRequest s)) as [Hlt Hm].
      { apply elem_of_app. left. apply list_elem_of_fmap_2.
        by eapply list_elem_of_lookup_2. }
      by rewrite (Hsent i s Hsi Hlt).
Qed.

Lemma marks_kept ev w c : marked c w -> marked c (step ev w).
Proof. apply step_keeps_mark. Qed.

(** The three ways the pending descriptors change without a replay. *)
Lemma one_shot_same ph ph' w w' :
  one_shot ph w ->
  (forall c, marked c w -> marked c w') ->
  replays (trace w') = replays (trace w) ->
  replay_exchanges (trace w') = replay_exchanges (trace w) ->
  pending ph' w' = pending ph w \/ pending ph' w' = [] ->
  one_shot ph' w'.
Proof.
  intros (Hp & Hr & He & Hd1 & Hd2 & Hm) Hkeep Hreq Hexq Hpend.
  unfold one_shot. rewrite Hreq, Hexq.
  destruct Hpend as [->| ->].
  - refine (conj Hp (conj Hr (conj He (conj Hd1 (conj Hd2 _))))).
    intros c Hc. by apply Hkeep, Hm.
  - refine (conj (NoDup_nil_2) (conj Hr (conj He (conj _ (conj Hd2 _))))).
    + by intros c Hc%elem_of_nil.
    + intros c [Hc%elem_of_nil|Hc]; [done|]. apply Hkeep, Hm. by right.
Qed.

Lemma one_shot_added ph ph' w w' c :
  one_shot ph w ->
  (forall c', marked c' w -> marked c' w') ->
  replays (trace w') = replays (trace w) ->
  replay_exchanges (trace w') = replay_exchanges (trace w) ->
  pending ph' w' ≡ₚ c :: pending ph w ->
  ~ marked c w -> marked c w' ->
  one_shot ph' w'.
Proof.
  intros (Hp & Hr & He & Hd1 & Hd2 & Hm) Hkeep Hreq Hexq Hpend Hnew Hnow.
  unfold one_shot. rewrite Hreq, Hexq.
  refine (conj _ (conj Hr (conj He (conj _ (conj Hd2 _))))).
  - rewrite Hpend. apply NoDup_cons. split; [|done].
    intros Hc. apply Hnew, Hm. by left.
  - intros c'. rewrite Hpend. intros [->|Hc']%elem_of_cons; [|by apply Hd1].
    split; intros Hc; apply Hnew, Hm; auto.
  - intros c'. rewrite Hpend, elem_of_cons.
    intros [[->|Hc']|Hc']; [done| |]; apply Hkeep, Hm; auto.
Qed.

Lemma one_shot_replayed w w' :
  one_shot ResumptionPending w ->
  (forall c, marked c w -> marked c w') ->
  trace w' = trace w ++ replays_from (next_ref w) (pending ResumptionPending w) ->
  (forall i, i < length (pending ResumptionPending w) ->
             marked (next_ref w + i) w') ->
  one_shot Idle w'.
Proof.
  intros (Hp & Hr & He & Hd1 & Hd2 & Hm) Hkeep Ht Hnew.
  set (cs := pending ResumptionPending w) in *.
  assert (forall c, c ∈ cs \/ c ∈ replays (trace w)
                    \/ c ∈ replay_exchanges (trace w) -> c < next_ref w) as Hold.
  { intros c Hc. by destruct (Hm c Hc). }
  unfold one_shot.
  rewrite Ht, replays_of_replays_from_app, replay_exchanges_app,
    replay_exchanges_replays_from.
  simpl. refine (conj (NoDup_nil_2) (conj _ (conj _ (conj _ (conj _ _))))).
  - apply NoDup_app. repeat split; try done.
    intros c Hc Hcs. by destruct (Hd1 c Hcs).
  - apply NoDup_app. repeat split; try done; [|apply NoDup_seq].
    intros c Hc [Hge _]%elem_of_seq. assert (c < next_ref w) by (apply Hold; auto). lia.
  - by intros c Hc%elem_of_nil.
  - intros c [Hc|Hc]%elem_of_app [Hx|[Hge _]%elem_of_seq]%elem_of_app.
    + by apply (Hd2 c).
    + assert (c < next_ref w) by (apply Hold; auto). lia.
    + by destruct (Hd1 c Hc).
    + assert (c < next_ref w) by (apply Hold; auto). lia.
  - intros c [Hc%elem_of_nil|[Hc|Hc]]; [done| |].
    + apply Hkeep, Hm. apply elem_of_app in Hc. tauto.
    + apply elem_of_app in Hc as [Hc|[Hge Hlt]%elem_of_seq].
      * apply Hkeep, Hm. auto.
      * replace c with (next_ref w + (c - next_ref w)) by lia.
        apply Hnew. lia.
Qed.

Lemma request_phase ph retry w :
  sent_before w -> in_phase ph w ->
  let w' := dispatch retry (CallerPromise (next_ref w)) w in
  in_phase ph w' /\ pending ph w' = pending ph w.
Proof.
  intros Hb Hph. destruct ph as [|x0| |]; simpl in Hph.
  - destruct Hph as (?&?&?&?). destruct w; simpl in *.
    repeat split; try done. by apply callers_only_insert.
  - destruct Hph as (Hf & Hj & Hs & (k0 & Hx0 & Hk0) & Hc).
    specialize (Hb x0 _ Hx0).
    destruct w as [? ? ? ? ? ? nr ?]; simpl in *.
    split; [|by rewrite lookup_insert_ne by lia].
    refine (conj Hf (conj Hj (conj Hs (conj _ _)))).
    + exists k0. rewrite lookup_insert_ne by lia. done.
    + rewrite delete_insert_ne by lia. by apply callers_only_insert.
  - destruct Hph as (?&?&?&?). destruct w; simpl in *.
    repeat split; try done. by apply callers_only_insert.
  - destruct Hph as (?&?&?). destruct w; simpl in *.
    repeat split; try done. by apply callers_only_insert.
Qed.

(** Line 28 in effect: once the activation has passed the test of line 27,
    the descriptor is marked. *)
Lemma interceptor_marks error k c w :
  isCancel error = false -> retryable error w = Some c -> c < next_ref w ->
  marked c (responseErrorInterceptor error k w).
Proof.
  intros Hc Hr Hlt. unfold responseErrorInterceptor. rewrite Hc, Hr.
  destruct w as [flag ? ? ? ? ? nr ?]; simpl in *. destruct flag; simpl.
  - split; [done|]. apply lookup_insert_eq.
  - unfold marked. simpl. split; [lia|].
    rewrite lookup_partial_alter_ne by lia. apply lookup_insert_eq.
Qed.

Lemma step_guarded ev w : well_formed ev -> guarded w -> guarded (step ev w).
Proof.
  intros Hwf (Hb & ph & Hph & Hos).
  destruct (step_well_phased ev w (conj Hb (ex_intro _ ph Hph))) as [Hb' _].
  split; [done|]. clear Hb'.
  destruct ev as [retry|x r|].
  - exists ph. destruct (request_phase ph retry w Hb Hph) as [Hph' Hp].
    split; [done|].
    apply (one_shot_same ph ph w); try done.
    + intros c. apply (marks_kept (AppRequest retry)).
    + simpl. by destruct w.
    + simpl. by destruct w.
    + by left.
  - destruct (inflight w !! x) as [k|] eqn:Hx.
    2: { exists ph. simpl. by rewrite Hx. }
    destruct (respond_replays x r w) as [Hrep Hexc].
    destruct r as [data|error].
    + destruct (deliver_phase ph x k (Fulfilled (Response data)) w Hph Hx)
        as (ph' & Hph' & Hp).
      exists ph'. simpl in *. rewrite Hx in *. split; [done|].
      apply (one_shot_same ph ph' w); try done; [|by left].
      intros c Hc. pose proof (marks_kept (Respond x (Ok data)) w c Hc) as H.
      simpl in H. by rewrite Hx in H.
    + destruct (interceptor_phase ph x k error w Hb Hph Hx)
        as (ph' & Hph' & Hp).
      assert (forall c, marked c w ->
                marked c (responseErrorInterceptor error k
                            (set_inflight (delete x (inflight w)) w))) as Hkeep.
      { intros c Hc. pose proof (marks_kept (Respond x (Err error)) w c Hc) as H.
        simpl in H. by rewrite Hx in H. }
      exists ph'. simpl in *. rewrite Hx in *. split; [done|].
      destruct Hp as [Hp|[Hp|(c & Hcancel & Hr & Hp)]].
      * apply (one_shot_same ph ph' w); try done. by left.
      * apply (one_shot_same ph ph' w); try done. by right.
      * destruct (retryable_cases error (set_inflight (delete x (inflight w)) w))
          as [Hnone|(c' & Hr' & _ & Hcfg & Hunmarked)]; [congruence|].
        assert (c' = c) as -> by congruence.
        assert (c = x) as -> by (destruct Hwf; congruence).
        apply (one_shot_added ph ph' w _ x); try done.
        -- intros [_ Hm]. revert Hunmarked. destruct w; simpl in *.
           by rewrite Hm.
        -- apply interceptor_marks; try done.
           specialize (Hb x k Hx). by destruct w.
  - simpl. destruct (jobs w) as [|j rest] eqn:Hj; [by exists ph|].
    assert (ph = ResumptionPending /\ rest = []) as [-> ->].
    { destruct ph as [|x0| |]; simpl in Hph.
      - destruct Hph as (_&_&?&_). congruence.
      - destruct Hph as (_&?&_). congruence.
      - destruct Hph as (_&(j'&?&_)&_). split; [done|]. congruence.
      - destruct Hph as (_&?&_). congruence. }
    destruct (resume_phase j w Hb Hph Hj) as [_ Hidle].
    exists Idle. split; [done|].
    assert (forall c, marked c w -> marked c (resume j (set_jobs [] w))) as Hkeep.
    { intros c Hc. pose proof (marks_kept RunJob w c Hc) as H.
      simpl in H. by rewrite Hj in H. }
    assert (refreshSubscribers (set_jobs [] w) = refreshSubscribers w /\
            next_ref (set_jobs [] w) = next_ref w /\
            trace (set_jobs [] w) = trace w) as (Hsu & Hn & Ht)
      by (by destruct w).
    destruct (job_settlement j) as [v|refreshError] eqn:Hs.
    + destruct (resume_fulfilled j v (set_jobs [] w) Hs) as [Htr Hnew].
      rewrite Hsu, Hn, Ht in *.
      assert (pending ResumptionPending w
              = (sub_originalRequest <$> refreshSubscribers w)
                ++ [job_originalRequest j]) as Hpend
        by (simpl; by rewrite Hj).
      apply (one_shot_replayed w); try done.
      * by rewrite Hpend.
      * rewrite Hpend. apply Hnew. intros c Hc.
        assert (marked c w) as [Hlt Hm].
        { destruct Hos as (_&_&_&_&_&Hm). apply Hm. left. by rewrite Hpend. }
        split; [by rewrite Hn|]. by destruct w.
    + apply (one_shot_same ResumptionPending Idle w); try done.
      * rewrite resume_replays, Hs, app_nil_r. by destruct w.
      * rewrite (resume_rejected_replay_exchanges j refreshError) by done.
        by destruct w.
      * by right.
Qed.

Lemma reachable_guarded window evs :
  Forall well_formed evs -> guarded (run evs (initial window)).
Proof.
  assert (guarded (initial window)) as H.
  { split; [|exists Idle; split].
    - intros x k Hx. simpl in Hx. by apply lookup_empty_Some in Hx.
    - repeat split. intros x k Hx. simpl in Hx. by apply lookup_empty_Some in Hx.
    - unfold one_shot. simpl.
      refine (conj (NoDup_nil_2) (conj (NoDup_nil_2) (conj (NoDup_nil_2)
                (conj _ (conj _ _))))).
      + by intros c Hc%elem_of_nil.
      + by intros c Hc%elem_of_nil.
      + intros c [Hc%elem_of_nil|[Hc%elem_of_nil|Hc%elem_of_nil]]; done. }
  revert H. generalize (initial window). intros w H Hwf.
  revert w H. induction Hwf as [|ev evs Hev _ IH]; intros w H; [done|].
  rewrite run_cons. by apply IH, step_guarded.
Qed.

(** X13: over any run in which errors carry the descriptor of their own
    exchange, no request is retried twice: no descriptor is replayed more
    than once, no exchange sent as a replay is ever replayed itself, and
    both the replayed descriptors and the replays carry the marker. *)
Theorem no_request_replayed_twice (window : bool) (evs : list Event) :
  Forall well_formed evs ->
  let w := run evs (initial window) in
  NoDup (replays (trace w)) /\
  NoDup (replay_exchanges (trace w)) /\
  (forall c, c ∈ replays (trace w) -> c ∉ replay_exchanges (trace w)) /\
  (forall c, c ∈ replays (trace w) \/ c ∈ replay_exchanges (trace w) ->
             retry_field w !! c = Some true).
Proof.
  intros Hwf w.
  destruct (reachable_guarded window evs Hwf)
    as (_ & ph & _ & (_ & Hr & He & _ & Hd & Hm)).
  fold w in Hr, He, Hd, Hm.
  refine (conj Hr (conj He (conj Hd _))).
  intros c Hc. destruct (Hm c) as [_ H]; [by right|done].
Qed.

Lemma no_request_replayed_twice_witness :
  NoDup (replays (trace (run abc_replayed (initial true)))).
Proof.
  apply (no_request_replayed_twice true abc_replayed).
  unfold abc_replayed, abc_refreshed. simpl.
  repeat (constructor; [simpl; auto|]). constructor.
Defined.

(** ** The flag and the subscriber list *)

Lemma onRefreshed_true_sent w :
  next_ref (onRefreshed true w) = next_ref w + length (refreshSubscribers w) /\
  jobs (onRefreshed true w) = jobs w /\
  forall i s, refreshSubscribers w !! i = Some s ->
    inflight (onRefreshed true w) !! (next_ref w + i) = Some (sub_promise s).
Proof.
  unfold onRefreshed.
  pose proof (drain_replays (refreshSubscribers w) w) as Hd. simpl in Hd.
  destruct (fold_left _ _ _). simpl in *.
  destruct Hd as (_ & Hn & Hj & _ & Hsent).
  repeat split; try done. intros i s Hi. by destruct (Hsent i s Hi).
Qed.

Lemma onRefreshed_false_served w :
  jobs (onRefreshed false w) = jobs w ++ rejected_awaits (refreshSubscribers w) /\
  settlements (trace (onRefreshed false w))
  = settlements (trace w) ++ rejected_callers (refreshSubscribers w) /\
  replays (trace (onRefreshed false w)) = replays (trace w).
Proof.
  unfold onRefreshed.
  pose proof (drain_rejections (refreshSubscribers w) w)
    as (_ & _ & _ & _ & Hj & Hs & _ & Hr & _).
  simpl in *. by destruct (fold_left _ _ _).
Qed.

(** The step that resumes the suspended activation: lines 47-50 or 52-59
    in one run. *)
Lemma resumption_serves_all j rest w :
  jobs w = j :: rest ->
  let w' := step RunJob w in
  isRefreshing w' = false /\
  refreshSubscribers w' = [] /\
  match job_settlement j with
  | Fulfilled _ =>
      trace w' = trace w ++ replays_from (next_ref w)
                   ((sub_originalRequest <$> refreshSubscribers w)
                    ++ [job_originalRequest j]) /\
      (forall i s, refreshSubscribers w !! i = Some s ->
         inflight w' !! (next_ref w + i) = Some (sub_promise s)) /\
      jobs w' = rest
  | Rejected refreshError =>
      settlements (trace w')
      = settlements (trace w) ++ rejected_callers (refreshSubscribers w)
        ++ match job_returned j with
           | CallerPromise p => [(p, Rejected refreshError)]
           | RefreshAwait _ _ => []
           end /\
      jobs w'
      = rest ++ rejected_awaits (refreshSubscribers w)
        ++ match job_returned j with
           | CallerPromise _ => []
           | RefreshAwait c k => [mkJob c k (Rejected refreshError)]
           end /\
      replays (trace w') = replays (trace w)
  end.
Proof.
  intros Hj w'. subst w'. simpl. rewrite Hj.
  destruct (resume_idle j (set_jobs rest w)) as [Hflag Hsubs].
  refine (conj Hflag (conj Hsubs _)).
  set (w0 := set_jobs rest w).
  assert (refreshSubscribers w0 = refreshSubscribers w /\
          next_ref w0 = next_ref w /\ trace w0 = trace w /\ jobs w0 = rest)
    as (Hsu & Hn & Ht & Hjs) by (by destruct w).
  destruct (job_settlement j) as [v|refreshError] eqn:Hs.
  - destruct (resume_fulfilled j v w0 Hs) as [Htr _].
    rewrite Hsu, Hn, Ht in Htr. split; [done|].
    unfold resume. rewrite Hs.
    set (w1 := set_isRefreshing false w0).
    assert (refreshSubscribers w1 = refreshSubscribers w /\
            next_ref w1 = next_ref w /\ jobs w1 = rest) as (Hsu1 & Hn1 & Hjs1)
      by (by destruct w).
    destruct (onRefreshed_true_sent w1) as (Hnn & Hjj & Hsent).
    rewrite Hsu1, Hn1 in *. split.
    + intros i s Hi.
      destruct (SquareAxios_frame (job_originalRequest j) (job_returned j)
                  (onRefreshed true w1) (next_ref w + i)) as [-> _].
      { apply lookup_lt_Some in Hi. rewrite Hnn. lia. }
      by apply Hsent.
    + destruct (SquareAxios_fields (job_originalRequest j) (job_returned j)
                  (onRefreshed true w1)) as (_ & _ & -> & _).
      by rewrite Hjj.
  - unfold resume. rewrite Hs.
    set (w1 := set_isRefreshing false w0).
    assert (refreshSubscribers w1 = refreshSubscribers w /\
            trace w1 = trace w /\ jobs w1 = rest) as (Hsu1 & Ht1 & Hjs1)
      by (by destruct w).
    destruct (onRefreshed_false_served w1) as (Hjj & Hss & Hrr).
    rewrite Hsu1, Ht1, Hjs1 in *.
    destruct (onRefreshed false w1) as [? ? ? ? ? ? ? win]. simpl in *.
    destruct win, (job_returned j) as [p|c k]; simpl;
      rewrite ?settlements_snoc, ?replays_snoc, ?app_nil_r, ?Hss, ?Hjj, ?Hrr,
        <- ?app_assoc; done.
Qed.

(** C9: in every world the event loop can reach, at every point between
    two handlers, [isRefreshing = false] implies that [refreshSubscribers]
    is empty; the resumption that settles a refresh leaves the flag cleared
    and the list empty in one uninterrupted run; and within that one step
    every subscriber is served before the list is emptied: after a fulfilled
    refresh each subscriber's request is replayed, in subscription order, for
    the subscriber's promise, and after a rejected one each subscriber is
    rejected with its own error, in subscription order. *)
Theorem idle_implies_no_subscribers (window : bool) (evs : list Event) :
  let w := run evs (initial window) in
  (isRefreshing w = false -> refreshSubscribers w = []) /\
  (forall j, isRefreshing (resume j w) = false /\
             refreshSubscribers (resume j w) = []) /\
  (forall j rest, jobs w = j :: rest ->
     let w' := step RunJob w in
     isRefreshing w' = false /\
     refreshSubscribers w' = [] /\
     match job_settlement j with
     | Fulfilled _ =>
         trace w' = trace w ++ replays_from (next_ref w)
                      ((sub_originalRequest <$> refreshSubscribers w)
                       ++ [job_originalRequest j]) /\
         (forall i s, refreshSubscribers w !! i = Some s ->
            inflight w' !! (next_ref w + i) = Some (sub_promise s)) /\
         jobs w' = rest
     | Rejected refreshError =>
         settlements (trace w')
         = settlements (trace w) ++ rejected_callers (refreshSubscribers w)
           ++ match job_returned j with
              | CallerPromise p => [(p, Rejected refreshError)]
              | RefreshAwait _ _ => []
              end /\
         jobs w'
         = rest ++ rejected_awaits (refreshSubscribers w)
           ++ match job_returned j with
              | CallerPromise _ => []
              | RefreshAwait c k => [mkJob c k (Rejected refreshError)]
              end /\
         replays (trace w') = replays (trace w)
     end).
Proof.
  intros w. refine (conj _ (conj _ _)).
  - by apply run_keeps_invariant.
  - intros j. apply resume_idle.
  - intros j rest Hj. by apply resumption_serves_all.
Qed.

(** After the whole episode the module is idle with no subscriber; and the
    resumption itself, run on the world where B and C are subscribed, sends
    their replays before the list is emptied. *)
Lemma idle_implies_no_subscribers_witness :
  (isRefreshing (run abc_refreshed (initial true)) = false /\
   refreshSubscribers (run abc_refreshed (initial true)) = []) /\
  (sub_originalRequest <$> refreshSubscribers (run abc_refresh_answered (initial true))
   = [1; 2] /\
   trace (step RunJob (run abc_refresh_answered (initial true)))
   = [RefreshPost 3; Replay 1 4; Replay 2 5; Replay 0 6] /\
   refreshSubscribers (step RunJob (run abc_refresh_answered (initial true))) = []).
Proof.
  split.
  - split; [reflexivity|].
    apply (idle_implies_no_subscribers true abc_refreshed). reflexivity.
  - destruct (idle_implies_no_subscribers true abc_refresh_answered)
      as (_ & _ & Hserve).
    destruct (Hserve (mkJob 0 (CallerPromise 0) (Fulfilled (Response 0))) []
                eq_refl) as (_ & Hsubs & Htrace & _).
    split; [reflexivity|]. split; [exact Htrace|exact Hsubs].
Defined.
